(** * Local per-site database layer of the Moodle app: tables and site schemas

    Shallow embedding of
    - [CoreEagerDatabaseTable] (classes/database/database-table-eager.ts), and
    - the schema registry and site lifecycle of [CoreSitesProvider]
      (services/sites.ts): [registerSiteSchema], [migrateSiteSchemas],
      [applySiteSchemas], [applySiteSchema], [getSite],
      [makeSiteFromSiteListEntry] and [newSite].

    Promises are modelled by their outcome ([Resolved] or [Rejected]) and
    asynchronous methods by state-passing functions that also return that
    outcome.  JavaScript objects used as dictionaries keep the property order
    of the language. *)

From stdpp Require Import gmap strings list fin_maps pretty sorting.

Open Scope Z_scope.

(** ** Errors and promise outcomes *)

(** The values a promise of the layer is rejected with. *)
Inductive JSError : Type :=
| CoreError (message : string)
| CoreSiteError (errorcode : string)
| UniquenessViolation
| StoreError (message : string).

(** Outcome of an awaited promise. *)
Inductive Outcome (A : Type) : Type :=
| Resolved (a : A)
| Rejected (e : JSError).
Arguments Resolved {A} a.
Arguments Rejected {A} e.

Definition is_rejected {A} (r : Outcome A) : bool :=
  match r with Rejected _ => true | Resolved _ => false end.

(** ** JavaScript objects used as dictionaries *)

Module JSObject.

(** Own string-keyed properties in creation order; [set] keeps the keys
    pairwise distinct.  The keys used by the layer (schema names, site ids,
    serialized primary keys) are taken not to name a member of
    [Object.prototype]. *)
Abbreviation t V := (list (string * V)).

Definition empty {V} : t V := [].

Fixpoint get {V} (o : t V) (k : string) : option V :=
  match o with
  | [] => None
  | (k', v) :: o' => if decide (k' = k) then Some v else get o' k
  end.

(** [o[k] = v]: an existing property keeps its place, a new one is created
    last. *)
Fixpoint set {V} (o : t V) (k : string) (v : V) : t V :=
  match o with
  | [] => [(k, v)]
  | (k', v') :: o' =>
      if decide (k' = k) then (k', v) :: o' else (k', v') :: set o' k v
  end.

Definition digit_of (c : Ascii.ascii) : option N :=
  let n := Ascii.N_of_ascii c in
  if ((48 <=? n) && (n <=? 57))%N then Some (n - 48)%N else None.

Fixpoint parse_digits (acc : N) (s : string) : option N :=
  match s with
  | EmptyString => Some acc
  | String c s' =>
      match digit_of c with
      | Some d => parse_digits (acc * 10 + d)%N s'
      | None => None
      end
  end.

(** A property key is an array index when it is the canonical decimal
    spelling of an integer in [0, 2^32 - 2]. *)
Definition array_index (k : string) : option N :=
  match k with
  | EmptyString => None
  | String c EmptyString => digit_of c
  | String c _ =>
      match digit_of c with
      | Some 0%N => None
      | _ => match parse_digits 0 k with
             | Some n => if (n <? 2 ^ 32 - 1)%N then Some n else None
             | None => None
             end
      end
  end.

Fixpoint insert_by_index {A} (n : N) (a : A) (l : list (N * A)) : list (N * A) :=
  match l with
  | [] => [(n, a)]
  | (m, b) :: l' =>
      if (n <? m)%N then (n, a) :: l else (m, b) :: insert_by_index n a l'
  end.

Definition sort_indexed {A} (l : list (N * A)) : list (N * A) :=
  foldr (λ e acc, insert_by_index e.1 e.2 acc) [] l.

Definition indexed {V} (o : t V) : list (N * (string * V)) :=
  omap (λ e, match array_index e.1 with
             | Some n => Some (n, e)
             | None => None
             end) o.

Definition named {V} (o : t V) : t V :=
  filter (λ e, array_index e.1 = None) o.

(** Property enumeration order ([Object.keys], [Object.values],
    [Object.entries], [for ... in]): array indices in ascending numeric
    order, then the other keys in creation order. *)
Definition entries {V} (o : t V) : list (string * V) :=
  (snd <$> sort_indexed (indexed o)) ++ named o.

Definition keys {V} (o : t V) : list string := fst <$> entries o.

(** [delete o[k]]. *)
Definition delete {V} (o : t V) (k : string) : t V :=
  filter (λ e, e.1 ≠ k) o.

Definition values {V} (o : t V) : list V := snd <$> entries o.

End JSObject.

(** ** Records and primary keys *)

Inductive SQLiteValue : Type :=
| VText (s : string)
| VInt (n : Z)
| VNull.

#[global] Instance SQLiteValue_eq_dec : EqDecision SQLiteValue.
Proof. solve_decision. Defined.

(** [SQLiteDBRecordValues]: column name to value. *)
Abbreviation DBRecord := (gmap string SQLiteValue).

(** The primary key object of a record: its key columns with their values,
    in the order of the table's key columns. *)
Abbreviation PrimaryKey := (list (string * option SQLiteValue)).

(** [String(value)]. *)
Definition js_String (v : option SQLiteValue) : string :=
  match v with
  | Some (VText s) => s
  | Some (VInt n) => pretty n
  | Some VNull => "null"
  | None => "undefined"
  end.

(** Modelled from the spec: [CoreDatabaseTable.getPrimaryKeyFromRecord] is
    declared in the base class database-table.ts, which is not among the
    sources; the key of a record is the tuple of its primary-key columns. *)
Definition getPrimaryKeyFromRecord (primaryKeyColumns : list string)
    (record : DBRecord) : PrimaryKey :=
  (λ column, (column, record !! column)) <$> primaryKeyColumns.

(** Modelled from the spec: [CoreDatabaseTable.serializePrimaryKey] (base
    class, not among the sources): the key values rendered as strings and
    joined by a separator. *)
Definition serializePrimaryKey (primaryKey : PrimaryKey) : string :=
  String.concat "-" ((λ c, js_String c.2) <$> primaryKey).

(** Modelled from the spec: [CoreDatabaseTable.recordMatches] (base class,
    not among the sources): exact match on every column of the conditions. *)
Definition recordMatches (record conditions : DBRecord) : bool :=
  bool_decide (conditions ⊆ record).

(** ** The eager table *)

Module Eager.

Record CoreEagerDatabaseTable : Type := mkTable {
  primaryKeyColumns : list string;
  (** rows of the table in the underlying store, in storage order *)
  database : list DBRecord;
  (** the in-memory mirror [this.records] *)
  records : JSObject.t DBRecord
}.

(** [this.serializePrimaryKey(this.getPrimaryKeyFromRecord(record))]. *)
Definition keyOf (primaryKeyColumns : list string) (record : DBRecord) : string :=
  serializePrimaryKey (getPrimaryKeyFromRecord primaryKeyColumns record).
Arguments keyOf _ _ : simpl never.

Definition recordKey (t : CoreEagerDatabaseTable) (record : DBRecord) : string :=
  keyOf (primaryKeyColumns t) record.

(** The mirror of rows with pairwise distinct keys, in creation order. *)
Definition mirrorOf (primaryKeyColumns : list string) (rows : list DBRecord)
    : JSObject.t DBRecord :=
  (λ r, (keyOf primaryKeyColumns r, r)) <$> rows.

Definition samePrimaryKey (t : CoreEagerDatabaseTable) (a b : DBRecord) : bool :=
  bool_decide (getPrimaryKeyFromRecord (primaryKeyColumns t) a
               = getPrimaryKeyFromRecord (primaryKeyColumns t) b).

(** Modelled from the spec: [super.all()] of the base class (not among the
    sources) returns the rows of the store. *)
Definition super_all (t : CoreEagerDatabaseTable) : list DBRecord :=
  database t.

(** Modelled from the spec: [super.insert(record)] of the base class (not
    among the sources) writes the row to the store and fails with a
    uniqueness violation when a row with the same primary key exists. *)
Definition super_insert (t : CoreEagerDatabaseTable) (record : DBRecord)
    : CoreEagerDatabaseTable * Outcome unit :=
  if existsb (samePrimaryKey t record) (database t)
  then (t, Rejected UniquenessViolation)
  else (mkTable (primaryKeyColumns t) (database t ++ [record]) (records t),
        Resolved tt).

Definition initialize (t : CoreEagerDatabaseTable) : CoreEagerDatabaseTable :=
  mkTable (primaryKeyColumns t) (database t)
    (foldl (λ data record, JSObject.set data (recordKey t record) record)
           JSObject.empty (super_all t)).

Definition all (t : CoreEagerDatabaseTable) (conditions : option DBRecord)
    : list DBRecord :=
  let records := JSObject.values (records t) in
  match conditions with
  | Some conditions => filter (λ record, recordMatches record conditions) records
  | None => records
  end.

Definition find (t : CoreEagerDatabaseTable) (conditions : DBRecord)
    : Outcome DBRecord :=
  match List.find (λ record, recordMatches record conditions)
                  (JSObject.values (records t)) with
  | Some record => Resolved record
  | None => Rejected (CoreError "No records found.")
  end.

Definition findByPrimaryKey (t : CoreEagerDatabaseTable) (primaryKey : PrimaryKey)
    : Outcome DBRecord :=
  match JSObject.get (records t) (serializePrimaryKey primaryKey) with
  | Some record => Resolved record
  | None => Rejected (CoreError "No records found.")
  end.

Definition insert (t : CoreEagerDatabaseTable) (record : DBRecord)
    : CoreEagerDatabaseTable * Outcome unit :=
  match super_insert t record with
  | (t', Resolved _) =>
      let primaryKey := recordKey t record in
      (mkTable (primaryKeyColumns t') (database t')
               (JSObject.set (records t') primaryKey record), Resolved tt)
  | (t', Rejected e) => (t', Rejected e)
  end.

(** A table over an empty or pre-filled store, right after [initialize]. *)
Definition open (primaryKeyColumns : list string) (rows : list DBRecord)
    : CoreEagerDatabaseTable :=
  initialize (mkTable primaryKeyColumns rows JSObject.empty).

(** Successive inserts; the first rejection stops the sequence. *)
Fixpoint insertAll (t : CoreEagerDatabaseTable) (rs : list DBRecord)
    : CoreEagerDatabaseTable * Outcome unit :=
  match rs with
  | [] => (t, Resolved tt)
  | r :: rs' =>
      match insert t r with
      | (t', Resolved _) => insertAll t' rs'
      | (t', Rejected e) => (t', Rejected e)
      end
  end.

(** [CoreDatabaseReducer], as far as the eager table reads it. *)
Record CoreDatabaseReducer (T : Type) : Type := mkReducer {
  js : T → DBRecord → T;
  jsInitialValue : T
}.
Arguments js {T} _ _ _.
Arguments jsInitialValue {T} _.

(** [CoreDatabaseConditions], as far as the eager table reads it: the
    predicate [js]. *)
Record CoreDatabaseConditions : Type := mkConditions {
  conditions_js : DBRecord → bool
}.

Definition reduce {T} (t : CoreEagerDatabaseTable) (reducer : CoreDatabaseReducer T)
    (conditions : option CoreDatabaseConditions) : T :=
  foldl (λ result record,
           if match conditions with
              | None => true
              | Some c => conditions_js c record
              end
           then js reducer result record
           else result)
        (jsInitialValue reducer) (JSObject.values (records t)).

(** [Object.assign(record, updates)]. *)
Definition assign (record updates : DBRecord) : DBRecord := updates ∪ record.

(** The test of the update loop: no conditions, or the record matches. *)
Definition updateMatches (conditions : option DBRecord) (record : DBRecord) : bool :=
  match conditions with
  | Some c => recordMatches record c
  | None => true
  end.

(** Modelled from the spec: [super.update(updates, conditions)] of the base
    class (not among the sources) overwrites the given columns on every
    matching row of the store. *)
Definition super_update (t : CoreEagerDatabaseTable) (updates : DBRecord)
    (conditions : option DBRecord) : CoreEagerDatabaseTable * Outcome unit :=
  (mkTable (primaryKeyColumns t)
     ((λ r, if updateMatches conditions r then assign r updates else r)
      <$> database t)
     (records t), Resolved tt).

Definition update (t : CoreEagerDatabaseTable) (updates : DBRecord)
    (conditions : option DBRecord) : CoreEagerDatabaseTable * Outcome unit :=
  match super_update t updates conditions with
  | (t', Resolved _) =>
      (mkTable (primaryKeyColumns t') (database t')
         ((λ e, (e.1, if updateMatches conditions e.2
                      then assign e.2 updates else e.2)) <$> records t'),
       Resolved tt)
  | (t', Rejected e) => (t', Rejected e)
  end.

(** Modelled from the spec: [super.updateWhere(updates, conditions)] of the
    base class (not among the sources), as [super.update] with a predicate. *)
Definition super_updateWhere (t : CoreEagerDatabaseTable) (updates : DBRecord)
    (conditions : CoreDatabaseConditions) : CoreEagerDatabaseTable * Outcome unit :=
  (mkTable (primaryKeyColumns t)
     ((λ r, if conditions_js conditions r then assign r updates else r)
      <$> database t)
     (records t), Resolved tt).

Definition updateWhere (t : CoreEagerDatabaseTable) (updates : DBRecord)
    (conditions : CoreDatabaseConditions) : CoreEagerDatabaseTable * Outcome unit :=
  match super_updateWhere t updates conditions with
  | (t', Resolved _) =>
      (mkTable (primaryKeyColumns t') (database t')
         ((λ e, (e.1, if conditions_js conditions e.2
                      then assign e.2 updates else e.2)) <$> records t'),
       Resolved tt)
  | (t', Rejected e) => (t', Rejected e)
  end.

(** Modelled from the spec: [super.delete(conditions)] of the base class
    (not among the sources) truncates the table without conditions and
    removes the matching rows otherwise. *)
Definition super_delete (t : CoreEagerDatabaseTable) (conditions : option DBRecord)
    : CoreEagerDatabaseTable * Outcome unit :=
  (mkTable (primaryKeyColumns t)
     match conditions with
     | None => []
     | Some c => filter (λ r, ¬ recordMatches r c) (database t)
     end
     (records t), Resolved tt).

Definition delete (t : CoreEagerDatabaseTable) (conditions : option DBRecord)
    : CoreEagerDatabaseTable * Outcome unit :=
  match super_delete t conditions with
  | (t', Resolved _) =>
      match conditions with
      | None =>
          (mkTable (primaryKeyColumns t') (database t') JSObject.empty, Resolved tt)
      | Some c =>
          (mkTable (primaryKeyColumns t') (database t')
             (foldl (λ records e, if recordMatches e.2 c
                                  then JSObject.delete records e.1
                                  else records)
                    (records t') (JSObject.entries (records t'))),
           Resolved tt)
      end
  | (t', Rejected e) => (t', Rejected e)
  end.

(** Modelled from the spec: [super.deleteByPrimaryKey(primaryKey)] of the
    base class (not among the sources) removes the row with that key. *)
Definition super_deleteByPrimaryKey (t : CoreEagerDatabaseTable)
    (primaryKey : PrimaryKey) : CoreEagerDatabaseTable * Outcome unit :=
  (mkTable (primaryKeyColumns t)
     (filter (λ r, getPrimaryKeyFromRecord (primaryKeyColumns t) r ≠ primaryKey)
             (database t))
     (records t), Resolved tt).

Definition deleteByPrimaryKey (t : CoreEagerDatabaseTable) (primaryKey : PrimaryKey)
    : CoreEagerDatabaseTable * Outcome unit :=
  match super_deleteByPrimaryKey t primaryKey with
  | (t', Resolved _) =>
      (mkTable (primaryKeyColumns t') (database t')
         (JSObject.delete (records t') (serializePrimaryKey primaryKey)),
       Resolved tt)
  | (t', Rejected e) => (t', Rejected e)
  end.

(** The mirror files every record under its own serialized key, once. *)
Definition mirrorKeyed (t : CoreEagerDatabaseTable) : Prop :=
  NoDup (records t).*1 ∧ ∀ e, e ∈ records t → e.1 = recordKey t e.2.

End Eager.


(** ** Site databases and site schemas *)

Module Sites.

Definition SITES_TABLE : string := "sites_2".
Definition CURRENT_SITE_TABLE : string := "current_site".
Definition SCHEMA_VERSIONS_TABLE : string := "schema_versions".

Record SQLiteDBTableSchema : Type := mkTableSchema {
  tableName : string;
  columns : list string
}.

(** State of one site's database: the rows of [SCHEMA_VERSIONS_TABLE]
    (primary key [name], column [version]) and the rows of the feature
    tables that exist. *)
Record SQLiteDB : Type := mkDB {
  schema_versions : gmap string Z;
  featureTables : gmap string (list DBRecord)
}.

Definition emptyDB : SQLiteDB := mkDB ∅ ∅.

(** [CoreRegisteredSiteSchema] ([CoreSiteSchema] plus [siteId]). *)
Record CoreRegisteredSiteSchema : Type := mkSchema {
  name : string;
  version : Z;
  canBeCleared : option (list string);
  onlyCurrentSite : bool;
  tables : option (list SQLiteDBTableSchema);
  migrate : option (SQLiteDB → Z → string → SQLiteDB * option JSError);
  siteId : option string
}.

Definition setSiteId (schema : CoreRegisteredSiteSchema) (sid : option string)
    : CoreRegisteredSiteSchema :=
  mkSchema (name schema) (version schema) (canBeCleared schema)
    (onlyCurrentSite schema) (tables schema) (migrate schema) sid.

Record CoreSite : Type := mkSite {
  id : option string;
  siteUrl : string;
  token : string;
  info : option string;
  privateToken : string;
  config : option string;
  loggedOut : bool;
  oauthId : option Z
}.

Definition getId (site : CoreSite) : option string := id site.

Definition setId (v : string) (s : CoreSite) : CoreSite :=
  mkSite (Some v) (siteUrl s) (token s) (info s) (privateToken s) (config s)
         (loggedOut s) (oauthId s).

Definition setToken (v : string) (s : CoreSite) : CoreSite :=
  mkSite (id s) (siteUrl s) v (info s) (privateToken s) (config s)
         (loggedOut s) (oauthId s).

Definition setPrivateToken (v : string) (s : CoreSite) : CoreSite :=
  mkSite (id s) (siteUrl s) (token s) (info s) v (config s)
         (loggedOut s) (oauthId s).

Definition setInfo (v : option string) (s : CoreSite) : CoreSite :=
  mkSite (id s) (siteUrl s) (token s) v (privateToken s) (config s)
         (loggedOut s) (oauthId s).

Definition setConfig (v : option string) (s : CoreSite) : CoreSite :=
  mkSite (id s) (siteUrl s) (token s) (info s) (privateToken s) v
         (loggedOut s) (oauthId s).

Definition setLoggedOut (v : bool) (s : CoreSite) : CoreSite :=
  mkSite (id s) (siteUrl s) (token s) (info s) (privateToken s) (config s)
         v (oauthId s).

Definition setOAuthId (v : option Z) (s : CoreSite) : CoreSite :=
  mkSite (id s) (siteUrl s) (token s) (info s) (privateToken s) (config s)
         (loggedOut s) v.

(** [site.id] used as a property key. *)
Definition siteKey (site : CoreSite) : string := default "undefined" (id site).

(** A row of [SITES_TABLE] in the app database. *)
Record SiteEntry : Type := mkEntry {
  entry_id : string;
  entry_siteUrl : string;
  entry_token : string;
  entry_info : option string;
  entry_privateToken : string;
  entry_config : option string;
  entry_loggedOut : Z;
  entry_oauthId : option Z
}.

Record AppDB : Type := mkAppDB {
  sitesTable : list SiteEntry;
  currentSiteTable : option string
}.

(** What the instrumented collaborators were asked to do, oldest first. *)
Inductive Event : Type :=
| EvCreateTables (site : string) (tables : list string)
| EvMigrate (site : string) (schema : string) (oldVersion : Z)
| EvInsertVersion (site : string) (name : string) (version : Z)
| EvAppRead (table : string)
| EvAppWrite (table : string).

#[global] Instance Event_eq_dec : EqDecision Event.
Proof. solve_decision. Defined.

(** A migration promise: still running for a site, with the argument its
    first store call was issued with, or settled. *)
Inductive MigrationPromise : Type :=
| Running (site : CoreSite) (tables : list SQLiteDBTableSchema)
| Settled (site : CoreSite) (result : Outcome unit).

(** The provider object together with the state of its collaborators. *)
Record CoreSitesProvider : Type := mkProvider {
  currentSite : option CoreSite;
  sites : gmap string CoreSite;
  siteSchemas : JSObject.t CoreRegisteredSiteSchema;
  siteTablesSchemas : list SQLiteDBTableSchema;
  siteSchemasMigration : gmap string nat;
  promises : gmap nat MigrationPromise;
  nextPromise : nat;
  appDB : AppDB;
  siteDBs : gmap string SQLiteDB;
  log : list Event
}.

(** [CoreSiteInfoResponse], as far as the provider reads it. *)
Record CoreSiteInfoResponse : Type := mkInfo {
  info_siteurl : string;
  info_username : string;
  info_json : string
}.

(** What lies outside the provider's sources: the global [name] of the
    WebView, the table creation of the SQLite wrapper, the web services of
    the site and the helpers whose bodies depend on them. *)
Record Environment : Type := mkEnv {
  window_name : string;
  createTablesFromSchema : list SQLiteDBTableSchema → SQLiteDB → SQLiteDB * option JSError;
  fetchSiteInfo : CoreSite → Outcome CoreSiteInfoResponse;
  isValidMoodleVersion : CoreSiteInfoResponse → Z;
  createSiteID : string → string → string;
  getSiteConfig : CoreSite → Outcome (option string)
}.

Definition set_currentSite (v : option CoreSite) (st : CoreSitesProvider) :=
  mkProvider v (sites st) (siteSchemas st) (siteTablesSchemas st)
    (siteSchemasMigration st) (promises st) (nextPromise st) (appDB st)
    (siteDBs st) (log st).

Definition set_sites (v : gmap string CoreSite) (st : CoreSitesProvider) :=
  mkProvider (currentSite st) v (siteSchemas st) (siteTablesSchemas st)
    (siteSchemasMigration st) (promises st) (nextPromise st) (appDB st)
    (siteDBs st) (log st).

Definition set_siteSchemas (v : JSObject.t CoreRegisteredSiteSchema)
    (st : CoreSitesProvider) :=
  mkProvider (currentSite st) (sites st) v (siteTablesSchemas st)
    (siteSchemasMigration st) (promises st) (nextPromise st) (appDB st)
    (siteDBs st) (log st).

Definition set_siteSchemasMigration (v : gmap string nat) (st : CoreSitesProvider) :=
  mkProvider (currentSite st) (sites st) (siteSchemas st) (siteTablesSchemas st)
    v (promises st) (nextPromise st) (appDB st) (siteDBs st) (log st).

Definition set_promises (v : gmap nat MigrationPromise) (n : nat)
    (st : CoreSitesProvider) :=
  mkProvider (currentSite st) (sites st) (siteSchemas st) (siteTablesSchemas st)
    (siteSchemasMigration st) v n (appDB st) (siteDBs st) (log st).

Definition set_appDB (v : AppDB) (st : CoreSitesProvider) :=
  mkProvider (currentSite st) (sites st) (siteSchemas st) (siteTablesSchemas st)
    (siteSchemasMigration st) (promises st) (nextPromise st) v (siteDBs st)
    (log st).

Definition set_siteDBs (v : gmap string SQLiteDB) (st : CoreSitesProvider) :=
  mkProvider (currentSite st) (sites st) (siteSchemas st) (siteTablesSchemas st)
    (siteSchemasMigration st) (promises st) (nextPromise st) (appDB st) v
    (log st).

Definition emit (ev : Event) (st : CoreSitesProvider) :=
  mkProvider (currentSite st) (sites st) (siteSchemas st) (siteTablesSchemas st)
    (siteSchemasMigration st) (promises st) (nextPromise st) (appDB st)
    (siteDBs st) (log st ++ [ev]).

(** *** Asynchronous methods *)

(** An [async] method run to completion: the state it leaves and the outcome
    of its promise.  A rejection keeps the effects made before it. *)
Definition Async (A : Type) : Type :=
  CoreSitesProvider → CoreSitesProvider * Outcome A.

Definition ret {A} (a : A) : Async A := λ st, (st, Resolved a).

Definition throw {A} (e : JSError) : Async A := λ st, (st, Rejected e).

Definition bind {A B} (m : Async A) (k : A → Async B) : Async B :=
  λ st, match m st with
        | (st', Resolved a) => k a st'
        | (st', Rejected e) => (st', Rejected e)
        end.

(** [try { m } finally { f }] and [promise.finally(f)]. *)
Definition finally {A} (m : Async A) (f : CoreSitesProvider → CoreSitesProvider)
    : Async A :=
  λ st, let '(st', r) := m st in (f st', r).

(** [promise.catch(() => undefined)]. *)
Definition catch_ignore {A} (m : Async A) : Async (option A) :=
  λ st, match m st with
        | (st', Resolved a) => (st', Resolved (Some a))
        | (st', Rejected _) => (st', Resolved None)
        end.

(** [Promise.all]: the operations were all started, so every one runs; they
    are run one after the other in array order (their interleaving at the
    store is not modelled) and the result is rejected with the first
    rejection. *)
Fixpoint Promise_all (ps : list (Async unit)) : Async unit :=
  match ps with
  | [] => ret tt
  | p :: ps' =>
      λ st, let '(st1, r1) := p st in
            let '(st2, r2) := Promise_all ps' st1 in
            (st2, match r1 with Rejected e => Rejected e | Resolved _ => r2 end)
  end.

Declare Scope async_scope.
Delimit Scope async_scope with async.
Notation "'do' x <- m ; k" := (bind m (λ x, k))
  (at level 10, x name, m at level 100, k at level 200) : async_scope.
Open Scope async_scope.

(** *** The site database as seen from the provider *)

(** [site.getDb()]. *)
Definition getDb (st : CoreSitesProvider) (site : CoreSite) : SQLiteDB :=
  default emptyDB (siteDBs st !! siteKey site).

Definition setDb (site : CoreSite) (db : SQLiteDB) (st : CoreSitesProvider) :=
  set_siteDBs (<[siteKey site := db]> (siteDBs st)) st.

Definition outcome_of (err : option JSError) : Outcome unit :=
  match err with Some e => Rejected e | None => Resolved tt end.

(** [site.getDb().createTablesFromSchema(tables)]. *)
Definition db_createTablesFromSchema (env : Environment) (site : CoreSite)
    (tables : list SQLiteDBTableSchema) : Async unit :=
  λ st, let '(db', err) := createTablesFromSchema env tables (getDb st site) in
        (emit (EvCreateTables (siteKey site) (tableName <$> tables))
              (setDb site db' st),
         outcome_of err).

(** [schema.migrate(db, oldVersion, site.id)]. *)
Definition db_migrate (site : CoreSite) (schema : CoreRegisteredSiteSchema)
    (callback : SQLiteDB → Z → string → SQLiteDB * option JSError)
    (oldVersion : Z) : Async unit :=
  λ st, let '(db', err) := callback (getDb st site) oldVersion (siteKey site) in
        (emit (EvMigrate (siteKey site) (name schema) oldVersion)
              (setDb site db' st),
         outcome_of err).

(** Modelled from the spec: [SQLiteDB.getAllRecords] is not among the
    sources; on the reserved table it yields the (name, version) pairs. *)
Definition db_getAllRecords_versions (site : CoreSite) : Async (list (string * Z)) :=
  λ st, (st, Resolved (map_to_list (schema_versions (getDb st site)))).

(** Modelled from the spec: [SQLiteDB.insertRecord] is not among the
    sources; the reserved table holds one version row per name, created or
    updated by the write (the provider's [login] and [addSite] likewise
    insert a row whose key may exist). *)
Definition db_insertRecord_version (site : CoreSite) (recordName : string)
    (recordVersion : Z) : Async unit :=
  λ st, let db := getDb st site in
        (emit (EvInsertVersion (siteKey site) recordName recordVersion)
              (setDb site (mkDB (<[recordName := recordVersion]> (schema_versions db))
                                (featureTables db)) st),
         Resolved tt).

(** *** Applying schemas *)

(** [if (schema.tables) { await db.createTablesFromSchema(schema.tables); }] *)
Definition createSchemaTables (env : Environment) (site : CoreSite)
    (schema : CoreRegisteredSiteSchema) : Async unit :=
  match tables schema with
  | Some ts => db_createTablesFromSchema env site ts
  | None => ret tt
  end.

(** [if (schema.migrate) { await schema.migrate(db, oldVersion, site.id); }] *)
Definition runSchemaMigration (site : CoreSite) (schema : CoreRegisteredSiteSchema)
    (oldVersion : Z) : Async unit :=
  match migrate schema with
  | Some callback => db_migrate site schema callback oldVersion
  | None => ret tt
  end.

(** The record written at the end names the global [name]: the method binds
    no [name] of its own. *)
Definition applySiteSchema (env : Environment) (site : CoreSite)
    (schema : CoreRegisteredSiteSchema) (oldVersion : Z) : Async unit :=
  do _ <- createSchemaTables env site schema ;
  do _ <- runSchemaMigration site schema oldVersion ;
  db_insertRecord_version site (window_name env) (version schema).

(** [versions[record.name] = record.version] for each record. *)
Definition versionsOf (records : list (string * Z)) : JSObject.t Z :=
  foldl (λ versions record, JSObject.set versions record.1 record.2)
        JSObject.empty records.

(** [schema.siteId && site.getId() != schema.siteId]. *)
Definition otherSite (site : CoreSite) (schema : CoreRegisteredSiteSchema) : bool :=
  match siteId schema with
  | Some sid => negb (bool_decide (sid = "")) && negb (bool_decide (getId site = Some sid))
  | None => false
  end.

(** The body of the [for ... in] loop: the promise pushed for one schema, if
    any. *)
Definition pendingSchema (env : Environment) (site : CoreSite)
    (versions : JSObject.t Z) (entry : string * CoreRegisteredSiteSchema)
    : option (Async unit) :=
  let '(name, schema) := entry in
  let oldVersion := default 0 (JSObject.get versions name) in
  if (version schema <=? oldVersion) || otherSite site schema
  then None
  else Some (applySiteSchema env site schema oldVersion).

Definition applySiteSchemas (env : Environment) (site : CoreSite)
    (schemas : JSObject.t CoreRegisteredSiteSchema) : Async unit :=
  do records <- db_getAllRecords_versions site ;
  let versions := versionsOf records in
  let promises := omap (pendingSchema env site versions) (JSObject.entries schemas) in
  Promise_all promises.

(** *** Migration of a site, coalesced per site *)

(** The synchronous part of [migrateSiteSchemas]: the promise handed back,
    either the one in flight or a new one that is registered. *)
Definition migrateSiteSchemas_call (site : CoreSite)
    : CoreSitesProvider → CoreSitesProvider * nat :=
  λ st, match siteSchemasMigration st !! siteKey site with
        | Some promise => (st, promise)
        | None =>
            let promise := nextPromise st in
            (set_siteSchemasMigration
               (<[siteKey site := promise]> (siteSchemasMigration st))
               (set_promises
                  (<[promise := Running site (siteTablesSchemas st)]> (promises st))
                  (S promise) st),
             promise)
        end.

(** [createTablesFromSchema(tables).then(() => this.applySiteSchemas(site,
    this.siteSchemas))]: the registry is read when the tables are there. *)
Definition migrationBody (env : Environment) (site : CoreSite)
    (tables : list SQLiteDBTableSchema) : Async unit :=
  do _ <- db_createTablesFromSchema env site tables ;
  λ st, applySiteSchemas env site (siteSchemas st) st.

(** The migration promise settles: the tables registered without a version
    are created, then the registered schemas are applied; its [finally]
    handler clears the entry of the site.  Awaiting a settled promise yields
    its result. *)
Definition migrateSiteSchemas_settle (env : Environment) (promise : nat)
    : Async unit :=
  λ st, match promises st !! promise with
        | Some (Running site tables) =>
            let '(st', r) :=
              finally
                (migrationBody env site tables)
                (λ st2, set_siteSchemasMigration
                          (delete (siteKey site) (siteSchemasMigration st2)) st2)
                st in
            (set_promises (<[promise := Settled site r]> (promises st'))
                          (nextPromise st') st', r)
        | Some (Settled _ r) => (st, r)
        | None => (st, Rejected (CoreError "unknown promise"))
        end.


(** *** Sites *)

Definition WORKPLACE_APP : Z := 3.
Definition MOODLE_APP : Z := 2.
Definition VALID_VERSION : Z := 1.
Definition INVALID_VERSION : Z := -1.

(** Modelled from the spec: [SQLiteDB.getRecord] is not among the sources;
    it is rejected when no row matches. *)
Definition appDB_getRecord_site (siteId : string) : Async SiteEntry :=
  λ st, (emit (EvAppRead SITES_TABLE) st,
         match List.find (λ e, bool_decide (entry_id e = siteId))
                         (sitesTable (appDB st)) with
         | Some entry => Resolved entry
         | None => Rejected (StoreError "No records found.")
         end).

Definition appDB_getAllRecords_sites : Async (list SiteEntry) :=
  λ st, (emit (EvAppRead SITES_TABLE) st, Resolved (sitesTable (appDB st))).

(** Modelled from the spec: [SQLiteDB.insertRecord] on the list of known
    sites keeps one row per site id. *)
Definition appDB_insertRecord_site (entry : SiteEntry) (st : CoreSitesProvider)
    : CoreSitesProvider :=
  let others := filter (λ e, entry_id e ≠ entry_id entry) (sitesTable (appDB st)) in
  emit (EvAppWrite SITES_TABLE)
    (set_appDB (mkAppDB (others ++ [entry]) (currentSiteTable (appDB st))) st).

Definition appDB_insertRecord_currentSite (siteId : string) (st : CoreSitesProvider)
    : CoreSitesProvider :=
  emit (EvAppWrite CURRENT_SITE_TABLE)
    (set_appDB (mkAppDB (sitesTable (appDB st)) (Some siteId)) st).

(** The part of [makeSiteFromSiteListEntry] that runs before its promise
    is awaited: the site object is built and its migration requested. *)
Definition makeSiteFromSiteListEntry_call (entry : SiteEntry)
    : CoreSitesProvider → CoreSitesProvider * (CoreSite * nat) :=
  λ st, let site := setOAuthId (entry_oauthId entry)
                      (mkSite (Some (entry_id entry)) (entry_siteUrl entry)
                         (entry_token entry) (entry_info entry)
                         (entry_privateToken entry) (entry_config entry)
                         (bool_decide (entry_loggedOut entry = 1)) None) in
        let '(st1, promise) := migrateSiteSchemas_call site st in
        (st1, (site, promise)).

(** The [then] callback of [makeSiteFromSiteListEntry]; it runs only when the
    migration promise resolved. *)
Definition makeSiteFromSiteListEntry_then (entry : SiteEntry) (site : CoreSite)
    (migration : Outcome unit) : Async CoreSite :=
  match migration with
  | Resolved _ => λ st, (set_sites (<[entry_id entry := site]> (sites st)) st,
                         Resolved site)
  | Rejected e => throw e
  end.

Definition makeSiteFromSiteListEntry (env : Environment) (entry : SiteEntry)
    : Async CoreSite :=
  λ st, let '(st1, (site, promise)) := makeSiteFromSiteListEntry_call entry st in
        let '(st2, migration) := migrateSiteSchemas_settle env promise st1 in
        makeSiteFromSiteListEntry_then entry site migration st2.

(** [!siteId]. *)
Definition noSiteId (siteId : option string) : bool :=
  match siteId with
  | None => true
  | Some s => bool_decide (s = "")
  end.

(** [dbReady] swallows the errors of the app database schema, so awaiting
    it always goes through. *)
Definition getSite (env : Environment) (siteId : option string) : Async CoreSite :=
  λ st,
    if noSiteId siteId then
      match currentSite st with
      | Some site => (st, Resolved site)
      | None => (st, Rejected (CoreError "No current site found."))
      end
    else
      let wanted := default "" siteId in
      match currentSite st with
      | Some site =>
          if bool_decide (getId site = Some wanted) then (st, Resolved site)
          else match sites st !! wanted with
               | Some site' => (st, Resolved site')
               | None => (do data <- appDB_getRecord_site wanted ;
                          makeSiteFromSiteListEntry env data) st
               end
      | None =>
          match sites st !! wanted with
          | Some site' => (st, Resolved site')
          | None => (do data <- appDB_getRecord_site wanted ;
                     makeSiteFromSiteListEntry env data) st
          end
      end.

Definition getSitesIds : Async (list string) :=
  do sites <- appDB_getAllRecords_sites ;
  ret (entry_id <$> sites).

(** [schemas[schema.name] = schema] on a fresh object. *)
Definition singleSchema (schema : CoreRegisteredSiteSchema)
    : JSObject.t CoreRegisteredSiteSchema :=
  JSObject.set JSObject.empty (name schema) schema.

Definition recordSchema (schema : CoreRegisteredSiteSchema) (st : CoreSitesProvider)
    : CoreSitesProvider :=
  set_siteSchemas (JSObject.set (siteSchemas st) (name schema) schema) st.

Definition registerSiteSchema (env : Environment) (schema : CoreRegisteredSiteSchema)
    : Async unit :=
  λ st,
    match currentSite st with
    | Some current =>
        if negb (onlyCurrentSite schema) then
          finally
            (do siteIds <- getSitesIds ;
             Promise_all
               ((λ siteId, do site <- getSite env (Some siteId) ;
                           applySiteSchemas env site (singleSchema schema))
                <$> siteIds))
            (recordSchema schema) st
        else
          (* the schema object itself receives the site id *)
          let schema' := setSiteId schema (getId current) in
          finally (applySiteSchemas env current (singleSchema schema'))
                  (recordSchema schema') st
    | None =>
        if negb (onlyCurrentSite schema)
        then (recordSchema schema st, Resolved tt)
        else (st, Resolved tt)
    end.

(** The error [treatInvalidAppVersion(result, siteUrl)] throws, by its
    [errorcode]; without a site id it does nothing else. *)
Definition treatInvalidAppVersion (result : Z) : JSError :=
  CoreSiteError
    (if bool_decide (result = MOODLE_APP) then "connecttomoodleapp"
     else if bool_decide (result = WORKPLACE_APP) then "connecttoworkplaceapp"
     else "invalidmoodleversion").

(** Where [newSite] stands when it stops to wait for the migration. *)
Inductive NewSiteStep : Type :=
| NewSiteRejected (e : JSError)
| NewSiteExisting (candidateSite : CoreSite) (siteId : string)
    (info : CoreSiteInfoResponse)
| NewSiteMigrating (candidateSite : CoreSite) (siteId : string)
    (info : CoreSiteInfoResponse) (promise : nat).

(** [newSite] up to the request of the migration of a new site. *)
Definition newSite_call (env : Environment) (siteUrl token privateToken : string)
    (oauthId : option Z) : CoreSitesProvider → CoreSitesProvider * NewSiteStep :=
  λ st,
    let candidateSite := mkSite None siteUrl token None privateToken None false None in
    match fetchSiteInfo env candidateSite with
    | Rejected e => (st, NewSiteRejected e)
    | Resolved info =>
        let result := isValidMoodleVersion env info in
        if bool_decide (result = VALID_VERSION) then
          let siteId := createSiteID env (info_siteurl info) (info_username info) in
          match catch_ignore (getSite env (Some siteId)) st with
          | (st1, Resolved (Some site)) =>
              (st1, NewSiteExisting
                      (setLoggedOut false
                         (setOAuthId oauthId
                            (setInfo (Some (info_json info))
                               (setPrivateToken privateToken (setToken token site)))))
                      siteId info)
          | (st1, _) =>
              let candidateSite :=
                setOAuthId oauthId
                  (setInfo (Some (info_json info)) (setId siteId candidateSite)) in
              let '(st2, promise) := migrateSiteSchemas_call candidateSite st1 in
              (st2, NewSiteMigrating candidateSite siteId info promise)
          end
        else (st, NewSiteRejected (treatInvalidAppVersion result))
    end.

(** [newSite] once the site is migrated or known: the configuration is
    fetched, then the site is stored, cached and possibly made current.
    [addSite] and [login] are not awaited; their writes to the app database
    are recorded where they are requested. *)
Definition newSite_then (env : Environment) (siteUrl token privateToken : string)
    (login : bool) (oauthId : option Z) (isNewSite : bool)
    (candidateSite : CoreSite) (siteId : string) (info : CoreSiteInfoResponse)
    : Async string :=
  do config <- (λ st, match getSiteConfig env candidateSite with
                      | Resolved config => (st, Resolved config)
                      | Rejected e => if isNewSite then (st, Rejected e)
                                      else (st, Resolved None)
                      end) ;
  λ st,
    let candidateSite :=
      match config with
      | Some c => setConfig (Some c) candidateSite
      | None => candidateSite
      end in
    let st1 := appDB_insertRecord_site
                 (mkEntry siteId siteUrl token (Some (info_json info)) privateToken
                          config 0 oauthId) st in
    let st2 := set_sites (<[siteId := candidateSite]> (sites st1)) st1 in
    let st3 := if login
               then appDB_insertRecord_currentSite siteId
                      (set_currentSite (Some candidateSite) st2)
               else st2 in
    (st3, Resolved siteId).

(** The trailing [catch] of [newSite]: the error code "invaliddevice" is
    treated as [WORKPLACE_APP]. *)
Definition newSite_catch {A} (r : Outcome A) : Outcome A :=
  match r with
  | Rejected (CoreSiteError "invaliddevice") =>
      Rejected (treatInvalidAppVersion WORKPLACE_APP)
  | _ => r
  end.

Definition newSite (env : Environment) (siteUrl token privateToken : string)
    (login : bool) (oauthId : option Z) : Async string :=
  λ st,
    let '(st', r) :=
      match newSite_call env siteUrl token privateToken oauthId st with
      | (st1, NewSiteRejected e) => (st1, Rejected e)
      | (st1, NewSiteExisting candidateSite siteId info) =>
          newSite_then env siteUrl token privateToken login oauthId false
            candidateSite siteId info st1
      | (st1, NewSiteMigrating candidateSite siteId info promise) =>
          match migrateSiteSchemas_settle env promise st1 with
          | (st2, Resolved _) =>
              newSite_then env siteUrl token privateToken login oauthId true
                candidateSite siteId info st2
          | (st2, Rejected e) => (st2, Rejected e)
          end
      end in
    (st', newSite_catch r).

(** *** Vocabulary of the properties *)

Definition isVersionWrite (ev : Event) : bool :=
  match ev with EvInsertVersion _ _ _ => true | _ => false end.

Definition isMigrate (ev : Event) : bool :=
  match ev with EvMigrate _ _ _ => true | _ => false end.

(** The writes to the reserved version table found in a log. *)
Definition versionWrites (l : list Event) : list Event :=
  List.filter isVersionWrite l.

(** The invocations of migration callbacks found in a log. *)
Definition migrateCalls (l : list Event) : list Event :=
  List.filter isMigrate l.

(** The installed version of a schema name that [applySiteSchemas] computes
    from the version table: [versions[name] || 0]. *)
Definition installedVersion (st : CoreSitesProvider) (site : CoreSite)
    (schemaName : string) : Z :=
  default 0 (schema_versions (getDb st site) !! schemaName).

(** A schema that [applySiteSchemas] does not skip for the site. *)
Definition isPending (st : CoreSitesProvider) (site : CoreSite)
    (entry : string * CoreRegisteredSiteSchema) : bool :=
  negb ((version entry.2 <=? installedVersion st site entry.1)
        || otherSite site entry.2).


(** A registry filled through [siteSchemas[schema.name] = schema]: one
    property per name, holding a schema of that name. *)
Definition registryOk (schemas : JSObject.t CoreRegisteredSiteSchema) : Prop :=
  NoDup schemas.*1 ∧ ∀ entry, entry ∈ schemas → name entry.2 = entry.1.

(** Feature code leaves the reserved version table alone: the table creation
    of the store and the callback of the schema do not write it. *)
Definition keepsVersions (env : Environment) (schema : CoreRegisteredSiteSchema)
    : Prop :=
  (∀ ts db, schema_versions (createTablesFromSchema env ts db).1 = schema_versions db)
  ∧ (∀ callback db v s, migrate schema = Some callback →
       schema_versions (callback db v s).1 = schema_versions db).



(** Two states that differ at most in the site databases and the log. *)
Definition sameRegistry (st st' : CoreSitesProvider) : Prop :=
  currentSite st' = currentSite st
  ∧ sites st' = sites st
  ∧ siteSchemas st' = siteSchemas st
  ∧ siteTablesSchemas st' = siteTablesSchemas st
  ∧ siteSchemasMigration st' = siteSchemasMigration st
  ∧ promises st' = promises st
  ∧ nextPromise st' = nextPromise st
  ∧ appDB st' = appDB st.

(** An operation that only works on site databases. *)
Definition storeOnly {A} (m : Async A) : Prop :=
  ∀ st, sameRegistry st (m st).1.


(** A migration of the site with this key has resolved. *)
Definition migrated (st : CoreSitesProvider) (key : string) : Prop :=
  ∃ promise site, promises st !! promise = Some (Settled site (Resolved tt))
                  ∧ siteKey site = key.

(** Every site reachable through the map or the current-site pointer is
    migrated; the bookkeeping of the migration promises is consistent. *)
Record exposedMigrated (st : CoreSitesProvider) : Prop := mkExposed {
  exposed_sites : ∀ key site, sites st !! key = Some site →
                    migrated st (siteKey site);
  exposed_current : ∀ site, currentSite st = Some site →
                      migrated st (siteKey site);
  exposed_inflight : ∀ key promise, siteSchemasMigration st !! key = Some promise →
                       ∃ site tables, promises st !! promise = Some (Running site tables)
                                      ∧ siteKey site = key;
  exposed_fresh : ∀ promise, is_Some (promises st !! promise) →
                    (promise < nextPromise st)%nat
}.

(** *** Release numbers *)

Import Stdlib.Strings.Ascii.

(** The regular expressions of the provider, over the characters of a
    string. *)
Inductive RegExp : Type :=
| ReDigit
| ReChar (c : Ascii.ascii)
| ReSeq (a b : RegExp)
| ReOpt (a : RegExp)
| RePlus (a : RegExp).

Definition isDigit (c : Ascii.ascii) : bool :=
  match JSObject.digit_of c with Some _ => true | None => false end.

(** A backtracking matcher: given the text matched so far, the rest of the
    input and what has to match afterwards, the text of the whole match. *)
Definition Matcher : Type :=
  string → string → (string → string → option string) → option string.

(** Greedy repetition: one more round first, none when that fails.  Every
    round of the patterns at hand consumes a character, so the length of
    the input bounds the rounds. *)
Fixpoint repeatMatcher (m : Matcher) (rounds : nat) : Matcher :=
  λ matched input k,
    match rounds with
    | O => k matched input
    | S rounds' =>
        match m matched input
                (λ matched' input', repeatMatcher m rounds' matched' input' k) with
        | Some result => Some result
        | None => k matched input
        end
    end.

Fixpoint compile (r : RegExp) : Matcher :=
  match r with
  | ReDigit => λ matched input k,
      match input with
      | String c rest => if isDigit c then k (matched +:+ String c "") rest else None
      | EmptyString => None
      end
  | ReChar c' => λ matched input k,
      match input with
      | String c rest =>
          if bool_decide (c = c') then k (matched +:+ String c "") rest else None
      | EmptyString => None
      end
  | ReSeq a b => λ matched input k,
      compile a matched input (λ matched' input', compile b matched' input' k)
  | ReOpt a => λ matched input k,
      match compile a matched input k with
      | Some result => Some result
      | None => k matched input
      end
  | RePlus a => λ matched input k,
      compile a matched input
        (λ matched' input',
           repeatMatcher (compile a) (String.length input') matched' input' k)
  end.

(** [input.match(/^r/)]: the matched text [matches[0]], or nothing. *)
Definition matchAtStart (r : RegExp) (input : string) : option string :=
  compile r "" input (λ matched _, Some matched).

(** [/^\d(\.\d(\.\d+)?)?/]. *)
Definition releasePattern : RegExp :=
  ReSeq ReDigit
    (ReOpt (ReSeq (ReSeq (ReChar "."%char) ReDigit)
                  (ReOpt (ReSeq (ReChar "."%char) (RePlus ReDigit))))).

Definition getReleaseNumber (rawRelease : string) : string :=
  match matchAtStart releasePattern rawRelease with
  | Some matched => matched
  | None => ""
  end.

(** The longest prefix of digits. *)
Fixpoint leadingDigits (s : string) : string :=
  match s with
  | String c rest => if isDigit c then String c (leadingDigits rest) else ""
  | EmptyString => ""
  end.

#[global] Instance JSError_eq_dec : EqDecision JSError.
Proof. solve_decision. Defined.

(** *** The current site and the list of sites *)

(** [getCurrentSiteId()]; the id of a site object can be undefined. *)
Definition getCurrentSiteId (st : CoreSitesProvider) : option string :=
  match currentSite st with
  | Some site => getId site
  | None => Some ""
  end.

(** The argument of [isCurrentSite]: a site object, a site id or nothing. *)
Inductive SiteOrId : Type :=
| ASite (site : CoreSite)
| AnId (siteId : string)
| NoArgument.

(** [!site]. *)
Definition noSite (site : SiteOrId) : bool :=
  match site with
  | ASite _ => false
  | AnId siteId => bool_decide (siteId = "")
  | NoArgument => true
  end.

Definition isCurrentSite (site : SiteOrId) (st : CoreSitesProvider) : bool :=
  match currentSite st with
  | None => false
  | Some current =>
      if noSite site then true
      else
        let siteId := match site with
                      | ASite s => getId s
                      | AnId s => Some s
                      | NoArgument => None
                      end in
        bool_decide (getId current = siteId)
  end.

Definition unsetCurrentSite (st : CoreSitesProvider) : CoreSitesProvider :=
  set_currentSite None st.

(** Modelled from the spec: [SQLiteDB.getRecords] is not among the sources;
    it yields the rows that match the conditions, here [{ loggedOut: 0 }]. *)
Definition appDB_getRecords_sites_loggedIn : Async (list SiteEntry) :=
  λ st, (emit (EvAppRead SITES_TABLE) st,
         Resolved (filter (λ e, entry_loggedOut e = 0) (sitesTable (appDB st)))).

Definition getLoggedInSitesIds : Async (list string) :=
  do sites <- appDB_getRecords_sites_loggedIn ;
  ret (entry_id <$> sites).

(** Modelled from the spec: [SQLiteDB.countRecords] is not among the
    sources; it counts the rows of the table. *)
Definition appDB_countRecords_sites : Async Z :=
  λ st, (emit (EvAppRead SITES_TABLE) st,
         Resolved (Z.of_nat (length (sitesTable (appDB st))))).

Definition hasSites : Async bool :=
  do count <- appDB_countRecords_sites ;
  ret (0 <? count).

(** [info ? JSON.stringify(info) : info] and the same for the
    configuration, which the model holds as text. *)
Definition addSite (id siteUrl token : string) (info : option CoreSiteInfoResponse)
    (privateToken : string) (config : option string) (oauthId : option Z)
    : Async unit :=
  λ st,
    let entry := mkEntry id siteUrl token (info_json <$> info) privateToken
                         config 0 oauthId in
    (appDB_insertRecord_site entry st, Resolved tt).

(** *** Schemas that can be cleared *)

Definition getSiteTableSchemasToClear (site : CoreSite) (st : CoreSitesProvider)
    : list string :=
  foldl (λ reset name,
           match JSObject.get (siteSchemas st) name with
           | Some schema =>
               match canBeCleared schema with
               | Some cleared =>
                   if negb (otherSite site schema) then reset ++ cleared else reset
               | None => reset
               end
           | None => reset
           end)
        [] (JSObject.keys (siteSchemas st)).

(** *** Workplace *)

(** [info.functions], as far as the provider reads it: the names. *)
Definition isWorkplace (functions : option (list string)) : bool :=
  match functions with
  | Some fs => existsb (λ f, bool_decide (f = "tool_program_get_user_programs")) fs
  | None => false
  end.

(** [validateWorkplaceVersion(info)], over the field [isWPApp] of the
    provider, which starts undefined: the field afterwards and the result. *)
Definition validateWorkplaceVersion (isWPApp : option bool)
    (functions : option (list string)) : option bool * Z :=
  let isWPApp := match isWPApp with
                 | None => false
                 | Some b => b
                 end in
  (Some isWPApp,
   if negb isWPApp && isWorkplace functions then WORKPLACE_APP
   else if isWPApp && negb (isWorkplace functions) then MOODLE_APP
   else VALID_VERSION).

End Sites.

(** ** The database provider *)

Module Db.

(** [SQLiteDB] and its emulation [SQLiteDBMock]. *)
Inductive DBClass : Type :=
| ClassSQLiteDB
| ClassSQLiteDBMock.

(** A database object: [ref] is the identity of the object. *)
Record DBObject : Type := mkDBObject {
  ref : nat;
  db_name : string;
  db_class : DBClass
}.

#[global] Instance DBClass_eq_dec : EqDecision DBClass.
Proof. solve_decision. Defined.

#[global] Instance DBObject_eq_dec : EqDecision DBObject.
Proof. solve_decision. Defined.

(** What the provider asks of its collaborators, oldest first. *)
Inductive DbEvent : Type :=
| EvClose (db : DBObject)
| EvEmptyDatabase (db : DBObject)
| EvDeleteDatabase (name : string).

(** [CoreDbQueryLog]. *)
Record CoreDbQueryLog : Type := mkQueryLog {
  sql : string;
  duration : Z;
  params : option (list string)
}.

Record CoreDbProvider : Type := mkDbProvider {
  queryLogs : list CoreDbQueryLog;
  dbInstances : gmap string DBObject;
  (** the objects created so far *)
  created : nat;
  calls : list DbEvent
}.

(** What lies outside the provider: the platform and the outcome of the
    operations of the database objects and of the SQLite plugin. *)
Record Platform : Type := mkPlatform {
  is_cordova : bool;
  close : DBObject → Outcome unit;
  emptyDatabase : DBObject → Outcome unit;
  deleteDatabase : string → Outcome unit
}.

Definition logQuery (sql : string) (duration : Z) (params : option (list string))
    (p : CoreDbProvider) : CoreDbProvider :=
  mkDbProvider (queryLogs p ++ [mkQueryLog sql duration params])
    (dbInstances p) (created p) (calls p).

(** [this.dbInstances[name] = new SQLiteDB(name)], or the mock. *)
Definition newInstance (platform : Platform) (name : string) (p : CoreDbProvider)
    : CoreDbProvider :=
  let db := mkDBObject (created p) name
              (if is_cordova platform then ClassSQLiteDB else ClassSQLiteDBMock) in
  mkDbProvider (queryLogs p) (<[name := db]> (dbInstances p)) (S (created p))
    (calls p).

(** The result is [this.dbInstances[name]], read after the assignment. *)
Definition getDB (platform : Platform) (name : string) (forceNew : bool)
    (p : CoreDbProvider) : CoreDbProvider * option DBObject :=
  let p' := if bool_decide (dbInstances p !! name = None) || forceNew
            then newInstance platform name p
            else p in
  (p', dbInstances p' !! name).

Definition call (ev : DbEvent) (p : CoreDbProvider) : CoreDbProvider :=
  mkDbProvider (queryLogs p) (dbInstances p) (created p) (calls p ++ [ev]).

Definition deleteDB (platform : Platform) (name : string) (p : CoreDbProvider)
    : CoreDbProvider * Outcome unit :=
  match dbInstances p !! name with
  | Some instance =>
      let p1 := call (EvClose instance) p in
      match close platform instance with
      | Rejected e => (p1, Rejected e)
      | Resolved _ =>
          let db := instance in
          let p2 := mkDbProvider (queryLogs p1) (delete name (dbInstances p1))
                      (created p1) (calls p1) in
          match db_class db with
          | ClassSQLiteDBMock =>
              (call (EvEmptyDatabase db) p2, emptyDatabase platform db)
          | ClassSQLiteDB =>
              (call (EvDeleteDatabase name) p2, deleteDatabase platform name)
          end
      end
  | None =>
      if is_cordova platform
      then (call (EvDeleteDatabase name) p, deleteDatabase platform name)
      else (p, Resolved tt)
  end.

(** The cache files every object under its own name, and the objects are
    among those created so far, each under one name. *)
Definition cacheOk (p : CoreDbProvider) : Prop :=
  ∀ name db, dbInstances p !! name = Some db →
    db_name db = name ∧ (ref db < created p)%nat.

End Db.

(** ** The page of the remaining main menu options *)

Module MoreMenu.

(** [CoreMainMenuHandlerData], as far as the page reads it; [handler] is
    the identity of the object, which [indexOf] compares. *)
Record CoreMainMenuHandlerData : Type := mkHandler {
  handler : nat;
  onlyInMore : bool
}.

#[global] Instance CoreMainMenuHandlerData_eq_dec : EqDecision CoreMainMenuHandlerData.
Proof. solve_decision. Defined.





End MoreMenu.

(** ** Sample data *)

Module Samples.

Definition rowA : DBRecord := <["id" := VInt 1]> (<["name" := VText "a"]> ∅).
Definition rowA' : DBRecord := <["id" := VInt 1]> (<["name" := VText "z"]> ∅).
Definition rowB : DBRecord := <["id" := VInt 2]> (<["name" := VText "b"]> ∅).
Definition rowX : DBRecord := <["id" := VText "x"]> (<["name" := VText "a"]> ∅).
Definition rowY : DBRecord := <["id" := VText "y"]> (<["name" := VText "b"]> ∅).

(** A WebView whose global [name] is the empty string; table creation
    registers the tables and succeeds; the site is unreachable. *)
Definition createTables_ok (ts : list Sites.SQLiteDBTableSchema) (db : Sites.SQLiteDB)
    : Sites.SQLiteDB * option JSError :=
  (Sites.mkDB (Sites.schema_versions db)
     (foldr (λ t m, match m !! Sites.tableName t with
                    | Some _ => m
                    | None => <[Sites.tableName t := []]> m
                    end) (Sites.featureTables db) ts),
   None).

Definition createTables_failing (ts : list Sites.SQLiteDBTableSchema)
    (db : Sites.SQLiteDB) : Sites.SQLiteDB * option JSError :=
  (db, Some (StoreError "disk full")).

Definition webview : Sites.Environment :=
  Sites.mkEnv "" createTables_ok
    (λ _, Resolved (Sites.mkInfo "https://school.example" "ana" "{}"))
    (λ _, Sites.VALID_VERSION)
    (λ url user, url +:+ user)
    (λ _, Resolved None).

Definition brokenStore : Sites.Environment :=
  Sites.mkEnv "" createTables_failing
    (λ _, Resolved (Sites.mkInfo "https://school.example" "ana" "{}"))
    (λ _, Sites.VALID_VERSION)
    (λ url user, url +:+ user)
    (λ _, Resolved None).

Definition site1 : Sites.CoreSite :=
  Sites.mkSite (Some "s1") "https://school.example" "tok" None "" None false None.

Definition entry1 : Sites.SiteEntry :=
  Sites.mkEntry "s1" "https://school.example" "tok" None "" None 0 None.

Definition migrate_ok (db : Sites.SQLiteDB) (oldVersion : Z) (siteId : string)
    : Sites.SQLiteDB * option JSError := (db, None).


Definition tableT : Sites.SQLiteDBTableSchema := Sites.mkTableSchema "T" ["id"; "name"].

(** Schema "Foo" at a given version, for the current site only or for all. *)
Definition foo (v : Z) (onlyCurrent : bool) : Sites.CoreRegisteredSiteSchema :=
  Sites.mkSchema "Foo" v None onlyCurrent (Some [tableT]) (Some migrate_ok) None.


(** A provider with no site loaded and nothing registered. *)
Definition fresh : Sites.CoreSitesProvider :=
  Sites.mkProvider None ∅ [] [Sites.mkTableSchema "schema_versions" ["name"; "version"]]
    ∅ ∅ 0 (Sites.mkAppDB [entry1] None) ∅ [].

(** Site s1 is loaded and current; its store has "Foo" at version 1. *)
Definition loaded : Sites.CoreSitesProvider :=
  Sites.mkProvider (Some site1) {["s1" := site1]} []
    [Sites.mkTableSchema "schema_versions" ["name"; "version"]]
    ∅ {[0%nat := Sites.Settled site1 (Resolved tt)]} 1
    (Sites.mkAppDB [entry1] (Some "s1"))
    {["s1" := Sites.mkDB {["Foo" := 1]} ∅]} [].

Definition desktop : Db.Platform :=
  Db.mkPlatform false (λ _, Resolved tt) (λ _, Resolved tt) (λ _, Resolved tt).

Definition noDatabases : Db.CoreDbProvider := Db.mkDbProvider [] ∅ 0 [].

End Samples.

(** * Properties *)

(** ** Dictionaries *)

Section JSObjectFacts.
Context {V : Type}.
Implicit Types (o : JSObject.t V) (k : string) (v : V).

Lemma get_set_eq o k v : JSObject.get (JSObject.set o k v) k = Some v.
Proof.
  induction o as [|[k' v'] o IH]; simpl.
  - by rewrite decide_True.
  - destruct (decide (k' = k)) as [->|Hne]; simpl.
    + by rewrite decide_True.
    + by rewrite decide_False.
Qed.

Lemma get_set_ne o k k' v :
  k ≠ k' → JSObject.get (JSObject.set o k v) k' = JSObject.get o k'.
Proof.
  intros Hne. induction o as [|[k0 v0] o IH]; simpl.
  - by rewrite decide_False.
  - destruct (decide (k0 = k)) as [->|Hk]; simpl.
    + by rewrite !decide_False.
    + destruct (decide (k0 = k')); done.
Qed.

Lemma set_fresh o k v : k ∉ o.*1 → JSObject.set o k v = o ++ [(k, v)].
Proof.
  induction o as [|[k' v'] o IH]; simpl; [done|].
  intros Hnin. apply not_elem_of_cons in Hnin as [Hne Hnin].
  rewrite decide_False by done. by rewrite IH.
Qed.

Lemma get_lookup_NoDup o k v :
  NoDup o.*1 → (k, v) ∈ o → JSObject.get o k = Some v.
Proof.
  induction o as [|[k' v'] o IH]; simpl; [by intros _ ?%elem_of_nil|].
  intros Hnd Hin. apply NoDup_cons in Hnd as [Hk' Hnd].
  apply elem_of_cons in Hin as [[= -> ->]|Hin].
  - by rewrite decide_True.
  - destruct (decide (k' = k)) as [->|Hne]; [|by apply IH].
    exfalso. apply Hk'. apply list_elem_of_fmap. by exists (k, v).
Qed.

Lemma entries_named o :
  (∀ e, e ∈ o → JSObject.array_index e.1 = None) → JSObject.entries o = o.
Proof.
  intros Hnamed. unfold JSObject.entries, JSObject.indexed, JSObject.named.
  assert (omap (λ e : string * V,
            match JSObject.array_index e.1 with
            | Some n => Some (n, e)
            | None => None
            end) o = []) as ->.
  { induction o as [|e o IH]; simpl; [done|].
    rewrite (Hnamed e) by apply list_elem_of_here.
    apply IH. intros e' He'. apply Hnamed. by apply list_elem_of_further. }
  change (filter (λ e : string * V, JSObject.array_index e.1 = None) o = o).
  induction o as [|e o IH]; [done|].
  rewrite filter_cons_True by (apply Hnamed, list_elem_of_here).
  f_equal. apply IH. intros e' He'. apply Hnamed. by apply list_elem_of_further.
Qed.

End JSObjectFacts.

Section SortFacts.
Context {A : Type}.
Implicit Types (l : list (N * A)).

Lemma insert_by_index_perm n (a : A) l :
  JSObject.insert_by_index n a l ≡ₚ (n, a) :: l.
Proof.
  induction l as [|[m b] l IH]; simpl; [done|].
  destruct (n <? m)%N; [done|].
  rewrite IH. apply Permutation_swap.
Qed.

Lemma sort_indexed_perm l : JSObject.sort_indexed l ≡ₚ l.
Proof.
  induction l as [|[n a] l IH]; simpl; [done|].
  rewrite insert_by_index_perm. by rewrite IH.
Qed.

Lemma insert_by_index_sorted n (a : A) l :
  StronglySorted (λ x y, (x.1 ≤ y.1)%N) l →
  StronglySorted (λ x y, (x.1 ≤ y.1)%N) (JSObject.insert_by_index n a l).
Proof.
  induction 1 as [|[m b] l Hs IH Hall]; simpl.
  - repeat constructor.
  - destruct (n <? m)%N eqn:Hlt.
    + apply N.ltb_lt in Hlt. constructor; [by constructor|].
      constructor; [simpl; lia|].
      eapply Forall_impl; [exact Hall|]. simpl. intros [] ?. simpl in *. lia.
    + apply N.ltb_ge in Hlt. constructor; [done|].
      rewrite insert_by_index_perm. by constructor.
Qed.

Lemma sort_indexed_sorted l :
  StronglySorted (λ x y, (x.1 ≤ y.1)%N) (JSObject.sort_indexed l).
Proof.
  induction l as [|[n a] l IH]; simpl; [constructor|].
  by apply insert_by_index_sorted.
Qed.

End SortFacts.

(** ** The eager table *)

Section EagerFacts.
Import Eager.
Variable cols : list string.

Local Abbreviation key := (keyOf cols).
Local Abbreviation mirror := (mirrorOf cols).

Lemma mirror_keys l : (mirror l).*1 = key <$> l.
Proof. unfold mirrorOf. rewrite <-list_fmap_compose. done. Qed.

Lemma foldl_set_fresh (rs : list DBRecord) (o : JSObject.t DBRecord) :
  NoDup (o.*1 ++ (key <$> rs)) →
  foldl (λ data r, JSObject.set data (key r) r) o rs = o ++ mirror rs.
Proof.
  revert o. induction rs as [|r rs IH]; intros o Hnd; simpl.
  - by rewrite app_nil_r.
  - assert (key r ∉ o.*1) as Hfresh.
    { apply NoDup_app in Hnd as (_ & Hdisj & _).
      intros Hin. apply (Hdisj _ Hin). simpl. apply list_elem_of_here. }
    rewrite set_fresh by done. rewrite IH.
    + by rewrite <-app_assoc.
    + rewrite fmap_app. simpl. rewrite <-app_assoc. exact Hnd.
Qed.

Lemma open_mirror (rows : list DBRecord) :
  NoDup (key <$> rows) → open cols rows = mkTable cols rows (mirror rows).
Proof.
  intros Hnd. unfold open, initialize, super_all, recordKey. simpl.
  f_equal. exact (foldl_set_fresh rows [] Hnd).
Qed.

Lemma insert_fresh (l : list DBRecord) (r : DBRecord) :
  key r ∉ key <$> l →
  insert (mkTable cols l (mirror l)) r
  = (mkTable cols (l ++ [r]) (mirror (l ++ [r])), Resolved tt).
Proof.
  intros Hfresh. unfold insert, super_insert. simpl.
  destruct (existsb _ l) eqn:Hex.
  - exfalso. apply existsb_exists in Hex as (stored & Hin & Hsame).
    unfold samePrimaryKey in Hsame. simpl in Hsame.
    apply bool_decide_eq_true in Hsame.
    apply Hfresh. apply list_elem_of_fmap. exists stored. split.
    + unfold keyOf. by rewrite Hsame.
    + by apply list_elem_of_In.
  - simpl. unfold recordKey. simpl. f_equal. f_equal.
    rewrite set_fresh by (by rewrite mirror_keys).
    unfold mirrorOf. by rewrite fmap_app.
Qed.

Lemma insertAll_fresh (rs l : list DBRecord) :
  NoDup (key <$> (l ++ rs)) →
  insertAll (mkTable cols l (mirror l)) rs
  = (mkTable cols (l ++ rs) (mirror (l ++ rs)), Resolved tt).
Proof.
  revert l. induction rs as [|r rs IH]; intros l Hnd; simpl.
  - by rewrite app_nil_r.
  - rewrite insert_fresh.
    + rewrite IH; rewrite <-app_assoc; done.
    + rewrite fmap_app in Hnd. apply NoDup_app in Hnd as (_ & Hdisj & _).
      intros Hin. apply (Hdisj _ Hin). simpl. apply list_elem_of_here.
Qed.

Lemma named_mirror (l : list DBRecord) :
  (JSObject.named (mirror l)).*2
  = filter (λ r, JSObject.array_index (key r) = None) l.
Proof.
  unfold JSObject.named, mirrorOf. induction l as [|r l IH]; [done|].
  rewrite fmap_cons. destruct (JSObject.array_index (key r)) eqn:Hr.
  - rewrite !filter_cons_False by (simpl; congruence). done.
  - rewrite !filter_cons_True by done. rewrite fmap_cons. by rewrite IH.
Qed.

Lemma indexed_mirror (l : list DBRecord) :
  (λ x : N * (string * DBRecord), x.2.2) <$> JSObject.indexed (mirror l)
  = filter (λ r, is_Some (JSObject.array_index (key r))) l.
Proof.
  unfold JSObject.indexed, mirrorOf. induction l as [|r l IH]; [done|].
  rewrite fmap_cons. cbn [omap list_omap fst].
  destruct (JSObject.array_index (key r)) eqn:Hr.
  - rewrite filter_cons_True by (rewrite Hr; eauto).
    rewrite fmap_cons. cbn [snd]. by rewrite IH.
  - rewrite filter_cons_False by (rewrite Hr; by intros [? ?]). done.
Qed.

Lemma indexed_mirror_index (l : list DBRecord) :
  Forall (λ x : N * (string * DBRecord),
            default 0%N (JSObject.array_index (key x.2.2)) = x.1)
         (JSObject.indexed (mirror l)).
Proof.
  unfold JSObject.indexed, mirrorOf. induction l as [|r l IH]; [constructor|].
  rewrite fmap_cons. cbn [omap list_omap fst].
  destruct (JSObject.array_index (key r)) eqn:Hr.
  - constructor; [cbn [fst snd]; by rewrite Hr|done].
  - done.
Qed.

Lemma sorted_by_index (L : list (N * (string * DBRecord))) :
  StronglySorted (λ x y, (x.1 ≤ y.1)%N) L →
  Forall (λ x, default 0%N (JSObject.array_index (key x.2.2)) = x.1) L →
  StronglySorted
    (λ a b, (default 0 (JSObject.array_index (key a))
             ≤ default 0 (JSObject.array_index (key b)))%N)
    ((λ x, x.2.2) <$> L).
Proof.
  induction 1 as [|x L Hs IH Hall]; intros HF; simpl; [constructor|].
  apply Forall_cons in HF as [Hx HF]. constructor; [by apply IH|].
  apply Forall_fmap. apply Forall_forall. intros y Hy. simpl.
  rewrite Forall_forall in Hall, HF. rewrite Hx, (HF y Hy). by apply Hall.
Qed.

Lemma values_mirror (l : list DBRecord) :
  JSObject.values (mirror l)
  = ((λ x, x.2.2) <$> JSObject.sort_indexed (JSObject.indexed (mirror l)))
    ++ filter (λ r, JSObject.array_index (key r) = None) l.
Proof.
  unfold JSObject.values, JSObject.entries.
  rewrite fmap_app, named_mirror, <-list_fmap_compose. done.
Qed.

Lemma values_mirror_named (l : list DBRecord) :
  (∀ r, r ∈ l → JSObject.array_index (key r) = None) →
  JSObject.values (mirror l) = l.
Proof.
  intros Hnamed. unfold JSObject.values. rewrite entries_named.
  - unfold mirrorOf. rewrite <-list_fmap_compose. apply list_fmap_id.
  - intros e (r & -> & Hr)%list_elem_of_fmap. by apply Hnamed.
Qed.

End EagerFacts.

Section EagerClaims.
Import Eager Samples.

(** C7. An insert whose primary key equals that of a stored record is
    rejected with a uniqueness violation and changes nothing: the store keeps
    its row count and the mirror, hence every later read, is as before. *)
Theorem insert_duplicate_rejected (t : CoreEagerDatabaseTable) (r stored : DBRecord) :
  stored ∈ database t →
  getPrimaryKeyFromRecord (primaryKeyColumns t) stored
  = getPrimaryKeyFromRecord (primaryKeyColumns t) r →
  insert t r = (t, Rejected UniquenessViolation)
  ∧ length (database (insert t r).1) = length (database t)
  ∧ records (insert t r).1 = records t
  ∧ (∀ conditions, all (insert t r).1 conditions = all t conditions)
  ∧ (∀ primaryKey, findByPrimaryKey (insert t r).1 primaryKey
                   = findByPrimaryKey t primaryKey).
Proof.
  intros Hin Hkey.
  assert (insert t r = (t, Rejected UniquenessViolation)) as Hins.
  { unfold insert, super_insert.
    assert (existsb (samePrimaryKey t r) (database t) = true) as ->; [|done].
    apply existsb_exists. exists stored. split; [by apply list_elem_of_In|].
    unfold samePrimaryKey. by apply bool_decide_eq_true. }
  rewrite Hins. simpl. done.
Qed.

Lemma insert_duplicate_rejected_witness :
  insert (insertAll (open ["id"] []) [rowA]).1 rowA'
  = ((insertAll (open ["id"] []) [rowA]).1, Rejected UniquenessViolation).
Proof.
  apply (insert_duplicate_rejected _ rowA' rowA).
  - vm_compute. apply list_elem_of_here.
  - vm_compute. reflexivity.
Defined.

(** C8. Inserting a record whose primary key is not stored yet succeeds, and
    looking its key up afterwards yields that very record. *)
Theorem insert_findByPrimaryKey (t : CoreEagerDatabaseTable) (r : DBRecord) :
  (∀ stored, stored ∈ database t →
     getPrimaryKeyFromRecord (primaryKeyColumns t) stored
     ≠ getPrimaryKeyFromRecord (primaryKeyColumns t) r) →
  ∃ t', insert t r = (t', Resolved tt)
        ∧ findByPrimaryKey t' (getPrimaryKeyFromRecord (primaryKeyColumns t') r)
          = Resolved r.
Proof.
  intros Hfresh. unfold insert, super_insert.
  destruct (existsb _ (database t)) eqn:Hex.
  - exfalso. apply existsb_exists in Hex as (stored & Hin & Hsame).
    unfold samePrimaryKey in Hsame. apply bool_decide_eq_true in Hsame.
    apply (Hfresh stored); [by apply list_elem_of_In|done].
  - eexists. split; [reflexivity|].
    unfold findByPrimaryKey, recordKey, keyOf. simpl.
    by rewrite get_set_eq.
Qed.

Lemma insert_findByPrimaryKey_witness :
  ∃ t', insert (insertAll (open ["id"] []) [rowA]).1 rowB = (t', Resolved tt)
        ∧ findByPrimaryKey t' (getPrimaryKeyFromRecord (primaryKeyColumns t') rowB)
          = Resolved rowB.
Proof.
  apply (insert_findByPrimaryKey (insertAll (open ["id"] []) [rowA]).1 rowB).
  intros stored Hin. vm_compute in Hin.
  apply list_elem_of_singleton in Hin as ->. vm_compute. discriminate.
Defined.

(** C9, as stated, fails: two rows with numeric keys inserted as 2 then 1
    are listed as 1 then 2. *)
Lemma all_not_insertion_order :
  ¬ (∀ (primaryKeyColumns : list string) (rows rs : list DBRecord) t',
       insertAll (open primaryKeyColumns rows) rs = (t', Resolved tt) →
       all t' None = rows ++ rs).
Proof.
  intros Hclaim.
  specialize (Hclaim ["id"] [] [rowB; rowA] _ eq_refl).
  vm_compute in Hclaim. discriminate.
Qed.

(** C9, amended.  After loading [rows] and inserting [rs], with pairwise
    distinct serialized keys, [all()] lists first the rows whose serialized
    key is an array index, by ascending index, then the other rows in
    insertion order; conditions filter that list; so the order is insertion
    order when no serialized key is an array index. *)
Theorem all_enumeration_order (primaryKeyColumns : list string)
    (rows rs : list DBRecord) :
  let index r := default 0%N (JSObject.array_index (keyOf primaryKeyColumns r)) in
  NoDup (keyOf primaryKeyColumns <$> (rows ++ rs)) →
  ∃ t' indexedRows,
    insertAll (open primaryKeyColumns rows) rs = (t', Resolved tt)
    ∧ all t' None
      = indexedRows
        ++ filter (λ r, JSObject.array_index (keyOf primaryKeyColumns r) = None)
                  (rows ++ rs)
    ∧ indexedRows
      ≡ₚ filter (λ r, is_Some (JSObject.array_index (keyOf primaryKeyColumns r)))
                (rows ++ rs)
    ∧ StronglySorted (λ a b, (index a ≤ index b)%N) indexedRows
    ∧ (∀ conditions,
         all t' (Some conditions)
         = filter (λ r, recordMatches r conditions) (all t' None))
    ∧ ((∀ r, r ∈ rows ++ rs →
          JSObject.array_index (keyOf primaryKeyColumns r) = None) →
       all t' None = rows ++ rs).
Proof.
  intros index Hnd.
  assert (NoDup (keyOf primaryKeyColumns <$> rows)) as Hrows.
  { rewrite fmap_app in Hnd. by apply NoDup_app in Hnd as (? & _ & _). }
  eexists _, _. split.
  { rewrite open_mirror by done. by apply insertAll_fresh. }
  unfold all. simpl. split; [apply values_mirror|]. split.
  { rewrite sort_indexed_perm. by rewrite indexed_mirror. }
  split.
  { apply sorted_by_index; [apply sort_indexed_sorted|].
    rewrite sort_indexed_perm. apply indexed_mirror_index. }
  split; [done|].
  apply values_mirror_named.
Qed.

Lemma all_enumeration_order_witness :
  ∃ t' indexedRows,
    insertAll (open ["id"] [rowY]) [rowB; rowX; rowA] = (t', Resolved tt)
    ∧ all t' None
      = indexedRows
        ++ filter (λ r, JSObject.array_index (keyOf ["id"] r) = None)
                  ([rowY] ++ [rowB; rowX; rowA])
    ∧ indexedRows
      ≡ₚ filter (λ r, is_Some (JSObject.array_index (keyOf ["id"] r)))
                ([rowY] ++ [rowB; rowX; rowA])
    ∧ StronglySorted
        (λ a b, (default 0 (JSObject.array_index (keyOf ["id"] a))
                 ≤ default 0 (JSObject.array_index (keyOf ["id"] b)))%N)
        indexedRows
    ∧ (∀ conditions,
         all t' (Some conditions)
         = filter (λ r, recordMatches r conditions) (all t' None))
    ∧ ((∀ r, r ∈ [rowY] ++ [rowB; rowX; rowA] →
          JSObject.array_index (keyOf ["id"] r) = None) →
       all t' None = [rowY] ++ [rowB; rowX; rowA]).
Proof.
  apply (all_enumeration_order ["id"] [rowY] [rowB; rowX; rowA]).
  refine (bool_decide_unpack _ _). vm_compute. exact I.
Defined.

End EagerClaims.

(** ** Site schemas *)

Section SchemaFacts.
Import Sites.

Lemma get_fresh_None {V} (o : JSObject.t V) k : k ∉ o.*1 → JSObject.get o k = None.
Proof.
  induction o as [|[k' v'] o IH]; simpl; [done|].
  intros [Hne Hnin]%not_elem_of_cons. by rewrite decide_False, IH.
Qed.

Lemma entries_single {V} (k : string) (v : V) : JSObject.entries [(k, v)] = [(k, v)].
Proof.
  unfold JSObject.entries, JSObject.indexed, JSObject.named.
  cbn [omap list_omap fst]. destruct (JSObject.array_index k) eqn:Hk.
  - rewrite filter_cons_False by (simpl; congruence). done.
  - rewrite filter_cons_True by done. done.
Qed.

Lemma entries_perm {V} (o : JSObject.t V) : JSObject.entries o ≡ₚ o.
Proof.
  unfold JSObject.entries. rewrite sort_indexed_perm.
  unfold JSObject.indexed, JSObject.named.
  induction o as [|e o IH]; [done|].
  cbn [omap list_omap]. destruct (JSObject.array_index e.1) eqn:He.
  - rewrite filter_cons_False by congruence. rewrite fmap_cons. simpl.
    by rewrite IH.
  - rewrite filter_cons_True by done. rewrite <-Permutation_middle. by rewrite IH.
Qed.

Lemma foldl_set_pairs {V} (l o : JSObject.t V) :
  NoDup (o.*1 ++ l.*1) →
  foldl (λ vs r, JSObject.set vs r.1 r.2) o l = o ++ l.
Proof.
  revert o. induction l as [|[k v] l IH]; intros o Hnd; simpl.
  - by rewrite app_nil_r.
  - assert (k ∉ o.*1) as Hfresh.
    { apply NoDup_app in Hnd as (_ & Hdisj & _).
      intros Hin. apply (Hdisj _ Hin). simpl. apply list_elem_of_here. }
    rewrite set_fresh by done. rewrite IH.
    + by rewrite <-app_assoc.
    + rewrite fmap_app. simpl. rewrite <-app_assoc. exact Hnd.
Qed.

Lemma versionsOf_lookup (m : gmap string Z) (k : string) :
  JSObject.get (versionsOf (map_to_list m)) k = m !! k.
Proof.
  unfold versionsOf, JSObject.empty.
  rewrite (foldl_set_pairs (map_to_list m) []) by apply NoDup_fst_map_to_list.
  simpl. destruct (m !! k) as [v|] eqn:Hk.
  - apply get_lookup_NoDup; [apply NoDup_fst_map_to_list|].
    by apply elem_of_map_to_list.
  - apply get_fresh_None. intros ([k' v] & Heq & Hin)%list_elem_of_fmap.
    simpl in Heq. subst k'. apply elem_of_map_to_list in Hin. congruence.
Qed.

(** What [applySiteSchemas] decides for one schema, in terms of the version
    table of the site. *)
Lemma pendingSchema_spec env site st entry :
  pendingSchema env site
    (versionsOf (map_to_list (schema_versions (getDb st site)))) entry
  = if isPending st site entry
    then Some (applySiteSchema env site entry.2 (installedVersion st site entry.1))
    else None.
Proof.
  destruct entry as [n schema]. unfold pendingSchema, isPending, installedVersion.
  rewrite versionsOf_lookup. simpl. by destruct (_ || _).
Qed.

Lemma applySiteSchemas_unfold env site schemas st :
  applySiteSchemas env site schemas st
  = Promise_all
      (omap (λ entry, if isPending st site entry
                      then Some (applySiteSchema env site entry.2
                                   (installedVersion st site entry.1))
                      else None)
            (JSObject.entries schemas)) st.
Proof.
  unfold applySiteSchemas, bind, db_getAllRecords_versions. simpl.
  f_equal. apply list_omap_ext. apply Forall2_same_length_lookup_2; [done|].
  intros i x y Hx Hy. rewrite Hx in Hy. injection Hy as <-.
  apply pendingSchema_spec.
Qed.

(** C3. When the version recorded for the name of a schema is at least the
    version being registered, applying the registration changes nothing: no
    table is created, no callback runs, the version table is as before; a
    registration for the current site only adds the schema to the registry. *)
Theorem applySiteSchemas_already_applied env site schema V st :
  schema_versions (getDb st site) !! name schema = Some V →
  version schema ≤ V →
  applySiteSchemas env site (singleSchema schema) st = (st, Resolved tt)
  ∧ (currentSite st = Some site → onlyCurrentSite schema = true →
     registerSiteSchema env schema st
     = (recordSchema (setSiteId schema (getId site)) st, Resolved tt)).
Proof.
  intros Hrec Hle.
  assert (∀ schema', name schema' = name schema → version schema' = version schema →
            applySiteSchemas env site (singleSchema schema') st = (st, Resolved tt))
    as Happly.
  { intros schema' Hn Hv. rewrite applySiteSchemas_unfold.
    unfold singleSchema. simpl. rewrite entries_single. cbn [omap list_omap].
    unfold isPending, installedVersion. simpl. rewrite Hn, Hv, Hrec. simpl.
    assert ((version schema <=? V) = true) as -> by lia. done. }
  split; [by apply Happly|].
  intros Hcur Honly. unfold registerSiteSchema. rewrite Hcur, Honly. simpl.
  unfold finally. by rewrite Happly.
Qed.

Lemma applySiteSchemas_already_applied_witness :
  applySiteSchemas Samples.webview Samples.site1
    (singleSchema (Samples.foo 1 true)) Samples.loaded
  = (Samples.loaded, Resolved tt).
Proof.
  apply (applySiteSchemas_already_applied Samples.webview Samples.site1
           (Samples.foo 1 true) 1 Samples.loaded).
  - vm_compute. reflexivity.
  - vm_compute. discriminate.
Defined.

(** C10. Without a site id, [getSite] yields the current site and touches
    nothing, the app database included; without a current site it is
    rejected with "No current site found.". *)
Theorem getSite_without_id env st :
  getSite env None st
  = (st, match currentSite st with
         | Some site => Resolved site
         | None => Rejected (CoreError "No current site found.")
         end).
Proof. unfold getSite. simpl. by destruct (currentSite st). Qed.

End SchemaFacts.

Section ApplyFacts.
Import Sites.

Lemma getDb_setDb site db st : getDb (setDb site db st) site = db.
Proof. unfold getDb, setDb. simpl. by rewrite lookup_insert_eq. Qed.

Lemma getDb_emit ev st site : getDb (emit ev st) site = getDb st site.
Proof. done. Qed.

Lemma sameRegistry_refl st : sameRegistry st st.
Proof. by repeat split. Qed.

Lemma sameRegistry_trans st1 st2 st3 :
  sameRegistry st1 st2 → sameRegistry st2 st3 → sameRegistry st1 st3.
Proof.
  intros (?&?&?&?&?&?&?&?) (?&?&?&?&?&?&?&?). repeat split; congruence.
Qed.

Lemma storeOnly_ret {A} (a : A) : storeOnly (ret a).
Proof. intros st. apply sameRegistry_refl. Qed.

Lemma storeOnly_bind {A B} (m : Async A) (k : A → Async B) :
  storeOnly m → (∀ a, storeOnly (k a)) → storeOnly (bind m k).
Proof.
  intros Hm Hk st. unfold bind. specialize (Hm st).
  destruct (m st) as [st1 [a|e]]; [|done].
  eapply sameRegistry_trans; [exact Hm|apply Hk].
Qed.

Lemma storeOnly_createTables env site ts :
  storeOnly (db_createTablesFromSchema env site ts).
Proof.
  intros st. unfold db_createTablesFromSchema.
  destruct (createTablesFromSchema env ts (getDb st site)). by repeat split.
Qed.

Lemma storeOnly_migrate site schema callback oldVersion :
  storeOnly (db_migrate site schema callback oldVersion).
Proof.
  intros st. unfold db_migrate.
  destruct (callback (getDb st site) oldVersion (siteKey site)). by repeat split.
Qed.

Lemma storeOnly_insertVersion site n v : storeOnly (db_insertRecord_version site n v).
Proof. intros st. by repeat split. Qed.

Lemma storeOnly_applySiteSchema env site schema oldVersion :
  storeOnly (applySiteSchema env site schema oldVersion).
Proof.
  unfold applySiteSchema. apply storeOnly_bind.
  { unfold createSchemaTables. destruct (tables schema);
      [apply storeOnly_createTables|apply storeOnly_ret]. }
  intros _. apply storeOnly_bind.
  { unfold runSchemaMigration. destruct (migrate schema);
      [apply storeOnly_migrate|apply storeOnly_ret]. }
  intros _. apply storeOnly_insertVersion.
Qed.

Lemma storeOnly_Promise_all ps :
  Forall storeOnly ps → storeOnly (Promise_all ps).
Proof.
  induction 1 as [|p ps Hp _ IH]; [apply storeOnly_ret|].
  intros st. simpl. specialize (Hp st). destruct (p st) as [st1 r1].
  specialize (IH st1). destruct (Promise_all ps st1) as [st2 r2].
  eapply sameRegistry_trans; [exact Hp|exact IH].
Qed.

Lemma storeOnly_applySiteSchemas env site schemas :
  storeOnly (applySiteSchemas env site schemas).
Proof.
  intros st. rewrite applySiteSchemas_unfold.
  apply storeOnly_Promise_all. apply Forall_forall.
  intros p (entry & _ & Hp)%list_elem_of_omap.
  destruct (isPending st site entry); [|done].
  injection Hp as <-. apply storeOnly_applySiteSchema.
Qed.




Lemma versionWrites_app l1 l2 :
  versionWrites (l1 ++ l2) = versionWrites l1 ++ versionWrites l2.
Proof. apply List.filter_app. Qed.





Lemma createSchemaTables_effect env site schema st :
  keepsVersions env schema →
  schema_versions (getDb (createSchemaTables env site schema st).1 site)
  = schema_versions (getDb st site)
  ∧ versionWrites (log (createSchemaTables env site schema st).1)
    = versionWrites (log st).
Proof.
  intros [Hcreate _]. unfold createSchemaTables.
  destruct (tables schema) as [ts|]; [|done].
  unfold db_createTablesFromSchema.
  specialize (Hcreate ts (getDb st site)).
  destruct (createTablesFromSchema env ts (getDb st site)) as [db' err].
  cbn [fst snd] in *. rewrite getDb_emit, getDb_setDb. split; [done|].
  cbn [log emit]. rewrite versionWrites_app. simpl. by rewrite app_nil_r.
Qed.

Lemma runSchemaMigration_effect env site schema oldVersion st :
  keepsVersions env schema →
  schema_versions (getDb (runSchemaMigration site schema oldVersion st).1 site)
  = schema_versions (getDb st site)
  ∧ versionWrites (log (runSchemaMigration site schema oldVersion st).1)
    = versionWrites (log st).
Proof.
  intros [_ Hmigrate]. unfold runSchemaMigration.
  destruct (migrate schema) as [callback|] eqn:Hcb; [|done].
  unfold db_migrate.
  specialize (Hmigrate callback (getDb st site) oldVersion (siteKey site) eq_refl).
  destruct (callback (getDb st site) oldVersion (siteKey site)) as [db' err].
  cbn [fst snd] in *. rewrite getDb_emit, getDb_setDb. split; [done|].
  cbn [log emit]. rewrite versionWrites_app. simpl. by rewrite app_nil_r.
Qed.

(** [Promise.all] over two batches. *)
Lemma Promise_all_app ps1 ps2 st :
  Promise_all (ps1 ++ ps2) st
  = (let '(st1, r1) := Promise_all ps1 st in
     let '(st2, r2) := Promise_all ps2 st1 in
     (st2, match r1 with Rejected e => Rejected e | Resolved _ => r2 end)).
Proof.
  revert st. induction ps1 as [|p ps1 IH]; intros st; simpl.
  - unfold ret. by destruct (Promise_all ps2 st).
  - destruct (p st) as [st1 r1]. rewrite IH.
    destruct (Promise_all ps1 st1) as [st2 r2].
    destruct (Promise_all ps2 st2) as [st3 r3].
    by destruct r1, r2.
Qed.

(** A rejection of any of the operations rejects the whole. *)
Lemma Promise_all_rejected ps1 p ps2 st :
  is_rejected (p (Promise_all ps1 st).1).2 = true →
  is_rejected (Promise_all (ps1 ++ p :: ps2) st).2 = true.
Proof.
  intros Hrej. rewrite Promise_all_app.
  destruct (Promise_all ps1 st) as [st1 r1]. simpl in *.
  destruct (p st1) as [st2 r2]. simpl in *.
  destruct (Promise_all ps2 st2) as [st3 r3].
  destruct r1, r2; done.
Qed.




(** A store that cannot create tables: the application stops there, the
    callback is not invoked and no version is written. *)
Example applySiteSchema_on_broken_store :
  let m := applySiteSchema Samples.brokenStore Samples.site1 (Samples.foo 2 true) 1
             Samples.loaded in
  m.2 = Rejected (StoreError "disk full")
  ∧ log m.1 = [EvCreateTables "s1" ["T"]]
  ∧ schema_versions (getDb m.1 Samples.site1) !! "Foo" = Some 1.
Proof. vm_compute. done. Qed.

(** C1 on the code: with version 1 of "Foo" installed, registering version 2
    and then version 3 for the current site invokes the callback from
    version 1 both times, and the version table keeps "Foo" at 1: the new
    versions are written under the global [name], here the empty string. *)
Theorem register_v2_then_v3 :
  let st2 := (registerSiteSchema Samples.webview (Samples.foo 2 true) Samples.loaded).1 in
  let st3 := (registerSiteSchema Samples.webview (Samples.foo 3 true) st2).1 in
  migrateCalls (log st3) = [EvMigrate "s1" "Foo" 1; EvMigrate "s1" "Foo" 1]
  ∧ versionWrites (log st3) = [EvInsertVersion "s1" "" 2; EvInsertVersion "s1" "" 3]
  ∧ schema_versions (getDb st3 Samples.site1) !! "Foo" = Some 1
  ∧ schema_versions (getDb st3 Samples.site1) !! "" = Some 3.
Proof. vm_compute. done. Qed.

(** A successful application records the version under the global [name],
    whatever the name of the schema. *)
Lemma applySiteSchema_records_global_name env site schema oldVersion st st' :
  keepsVersions env schema →
  applySiteSchema env site schema oldVersion st = (st', Resolved tt) →
  schema_versions (getDb st' site)
  = <[window_name env := version schema]> (schema_versions (getDb st site)).
Proof.
  intros Hkeep. unfold applySiteSchema, bind.
  destruct (createSchemaTables_effect env site schema st Hkeep) as [Hv1 _].
  destruct (createSchemaTables env site schema st) as [st1 [[]|e1]]; [|done].
  destruct (runSchemaMigration_effect env site schema oldVersion st1 Hkeep)
    as [Hv2 _].
  destruct (runSchemaMigration site schema oldVersion st1) as [st2 [[]|e2]];
    [|done].
  cbn [fst] in *. unfold db_insertRecord_version. intros [= <-].
  rewrite getDb_emit, getDb_setDb. cbn [schema_versions]. congruence.
Qed.





End ApplyFacts.

Section MigrationFacts.
Import Sites.

Lemma storeOnly_migrationBody env site tables :
  storeOnly (migrationBody env site tables).
Proof.
  unfold migrationBody. apply storeOnly_bind; [apply storeOnly_createTables|].
  intros _ st. apply storeOnly_applySiteSchemas.
Qed.

Lemma migrateSiteSchemas_settle_running env promise site tables st :
  promises st !! promise = Some (Running site tables) →
  migrateSiteSchemas_settle env promise st
  = (let st1 := (migrationBody env site tables st).1 in
     let r := (migrationBody env site tables st).2 in
     (set_promises (<[promise := Settled site r]> (promises st1)) (nextPromise st1)
        (set_siteSchemasMigration
           (delete (siteKey site) (siteSchemasMigration st1)) st1), r)).
Proof.
  intros Hp. unfold migrateSiteSchemas_settle, finally. rewrite Hp.
  by destruct (migrationBody env site tables st).
Qed.


Lemma set_keys {V} (o : JSObject.t V) k v :
  (JSObject.set o k v).*1 = o.*1
  ∨ ((k ∉ o.*1) ∧ (JSObject.set o k v).*1 = o.*1 ++ [k]).
Proof.
  induction o as [|[k' v'] o IH].
  - right. split; [apply not_elem_of_nil|done].
  - cbn [JSObject.set]. destruct (decide (k' = k)) as [->|Hne]; [by left|].
    rewrite !fmap_cons. cbn [fst].
    destruct IH as [Heq|[Hnin Heq]]; rewrite Heq; [by left|right].
    split; [|done]. apply not_elem_of_cons. by split.
Qed.

Lemma set_elem_of {V} (o : JSObject.t V) k v (e : string * V) :
  (e ∈ JSObject.set o k v) → e = (k, v) ∨ e ∈ o.
Proof.
  induction o as [|[k' v'] o IH]; simpl.
  - intros ->%list_elem_of_singleton. by left.
  - destruct (decide (k' = k)) as [->|Hne].
    + intros [->|He]%elem_of_cons; [by left|]. right. by apply list_elem_of_further.
    + intros [->|He]%elem_of_cons; [right; apply list_elem_of_here|].
      destruct (IH He) as [->|Hin]; [by left|]. right.
      by apply list_elem_of_further.
Qed.

(** Registering keeps the registry well formed. *)
Lemma recordSchema_registryOk schema st :
  registryOk (siteSchemas st) → registryOk (siteSchemas (recordSchema schema st)).
Proof.
  intros [Hnd Hnames]. unfold recordSchema. simpl. split.
  - destruct (set_keys (siteSchemas st) (name schema) schema) as [->|[Hnin ->]];
      [done|].
    apply NoDup_app. split; [done|]. split; [|apply NoDup_singleton].
    intros k Hk ->%list_elem_of_singleton. done.
  - intros entry [->|Hin]%set_elem_of; [done|by apply Hnames].
Qed.






End MigrationFacts.

(** ** Sites are exposed after their migration *)

Section ExposureFacts.
Import Sites.

Lemma migrated_mono st st' key :
  (∀ promise site, promises st !! promise = Some (Settled site (Resolved tt)) →
                   promises st' !! promise = Some (Settled site (Resolved tt))) →
  migrated st key → migrated st' key.
Proof. intros Hmono (promise & site & Hp & Hk). exists promise, site. eauto. Qed.

Lemma call_exposed site st :
  exposedMigrated st →
  let st1 := (migrateSiteSchemas_call site st).1 in
  let promise := (migrateSiteSchemas_call site st).2 in
  exposedMigrated st1 ∧ sites st1 = sites st ∧ currentSite st1 = currentSite st
  ∧ ∃ site' tables, promises st1 !! promise = Some (Running site' tables)
                    ∧ siteKey site' = siteKey site.
Proof.
  intros [Hs Hc Hi Hf] st1 promise. unfold st1, promise, migrateSiteSchemas_call.
  destruct (siteSchemasMigration st !! siteKey site) as [p|] eqn:Hm; cbn [fst snd].
  - split; [by constructor|]. split; [done|]. split; [done|]. by apply Hi.
  - assert (∀ p, is_Some (promises st !! p) → p ≠ nextPromise st) as Hne.
    { intros p Hp%Hf. lia. }
    assert (∀ key, migrated st key →
              migrated (set_siteSchemasMigration
                          (<[siteKey site := nextPromise st]> (siteSchemasMigration st))
                          (set_promises
                             (<[nextPromise st := Running site (siteTablesSchemas st)]>
                                (promises st)) (S (nextPromise st)) st)) key) as Hmig.
    { intros key. apply migrated_mono. intros p s Hp. simpl.
      rewrite lookup_insert_ne; [done|]. symmetry. apply Hne. eauto. }
    split; [|split; [done|split; [done|]]].
    + constructor; simpl.
      * intros key s Hk. apply Hmig. eauto.
      * intros s Hk. apply Hmig. eauto.
      * intros key p Hk. destruct (decide (siteKey site = key)) as [<-|Hkey].
        -- rewrite lookup_insert_eq in Hk. injection Hk as <-.
           exists site, (siteTablesSchemas st). by rewrite lookup_insert_eq.
        -- rewrite lookup_insert_ne in Hk by done.
           destruct (Hi key p Hk) as (s & ts & Hp & Hsk). exists s, ts.
           split; [|done]. rewrite lookup_insert_ne; [done|].
           symmetry. apply Hne. eauto.
      * intros p Hp. destruct (decide (nextPromise st = p)) as [<-|Hp'].
        -- lia.
        -- rewrite lookup_insert_ne in Hp by done. apply Hf in Hp. lia.
    + exists site, (siteTablesSchemas st). simpl. by rewrite lookup_insert_eq.
Qed.

Lemma settle_exposed env promise site tables st :
  exposedMigrated st →
  promises st !! promise = Some (Running site tables) →
  let st2 := (migrateSiteSchemas_settle env promise st).1 in
  let r := (migrateSiteSchemas_settle env promise st).2 in
  exposedMigrated st2 ∧ sites st2 = sites st ∧ currentSite st2 = currentSite st
  ∧ promises st2 !! promise = Some (Settled site r).
Proof.
  intros [Hs Hc Hi Hf] Hrun st2 r. unfold st2, r.
  rewrite (migrateSiteSchemas_settle_running env promise site tables st Hrun).
  destruct (storeOnly_migrationBody env site tables st)
    as (Hcur & Hsites & _ & _ & Hmig & Hps & Hnext & _).
  destruct (migrationBody env site tables st) as [st1 r1]. cbn [fst snd] in *.
  assert (∀ key, migrated st key →
            migrated (set_promises (<[promise := Settled site r1]> (promises st1))
                        (nextPromise st1)
                        (set_siteSchemasMigration
                           (delete (siteKey site) (siteSchemasMigration st1)) st1))
                     key) as Hmono.
  { intros key. apply migrated_mono. intros p s Hp. simpl. rewrite Hps.
    rewrite lookup_insert_ne; [done|]. intros <-. congruence. }
  split; [|split; [done|split; [done|]]].
  - constructor; simpl.
    + intros key s Hk. apply Hmono. rewrite Hsites in Hk. eauto.
    + intros s Hk. apply Hmono. rewrite Hcur in Hk. eauto.
    + intros key p Hk. rewrite Hmig in Hk.
      destruct (decide (siteKey site = key)) as [<-|Hkey].
      * by rewrite lookup_delete_eq in Hk.
      * rewrite lookup_delete_ne in Hk by done.
        destruct (Hi key p Hk) as (s & ts & Hp & Hsk). exists s, ts.
        split; [|done]. rewrite Hps. rewrite lookup_insert_ne; [done|].
        intros <-. rewrite Hrun in Hp. injection Hp as <- <-. done.
    + intros p Hp. rewrite Hps in Hp. rewrite Hnext.
      destruct (decide (promise = p)) as [<-|Hp'].
      * apply Hf. eauto.
      * rewrite lookup_insert_ne in Hp by done. by apply Hf.
  - simpl. by rewrite lookup_insert_eq.
Qed.

Lemma then_exposed entry site r st :
  exposedMigrated st →
  (r = Resolved tt → migrated st (siteKey site)) →
  exposedMigrated (makeSiteFromSiteListEntry_then entry site r st).1
  ∧ (is_rejected r = true → makeSiteFromSiteListEntry_then entry site r st
                             = (st, match r with
                                    | Rejected e => Rejected e
                                    | Resolved _ => Resolved site
                                    end)).
Proof.
  intros [Hs Hc Hi Hf] Hmig. destruct r as [[]|e]; simpl; [|by split].
  split; [|done]. constructor; simpl; [|done..].
  intros key s Hk. destruct (decide (entry_id entry = key)) as [<-|Hne].
  - rewrite lookup_insert_eq in Hk. injection Hk as <-.
    destruct (Hmig eq_refl) as (p & s' & Hp & Hsk). by exists p, s'.
  - rewrite lookup_insert_ne in Hk by done.
    destruct (Hs key s Hk) as (p & s' & Hp & Hsk). by exists p, s'.
Qed.

(** The three stages of loading a site from the list of sites. *)
Lemma makeSiteFromSiteListEntry_stages env entry st :
  exposedMigrated st →
  let st1 := (makeSiteFromSiteListEntry_call entry st).1 in
  let site := (makeSiteFromSiteListEntry_call entry st).2.1 in
  let promise := (makeSiteFromSiteListEntry_call entry st).2.2 in
  let st2 := (migrateSiteSchemas_settle env promise st1).1 in
  let r := (migrateSiteSchemas_settle env promise st1).2 in
  let st3 := (makeSiteFromSiteListEntry_then entry site r st2).1 in
  (sites st1 = sites st ∧ currentSite st1 = currentSite st ∧ exposedMigrated st1)
  ∧ (sites st2 = sites st ∧ currentSite st2 = currentSite st ∧ exposedMigrated st2)
  ∧ exposedMigrated st3
  ∧ (is_rejected r = true → st3 = st2)
  ∧ makeSiteFromSiteListEntry env entry st
    = makeSiteFromSiteListEntry_then entry site r st2
  ∧ siteKey site = entry_id entry
  ∧ (r = Resolved tt → migrated st3 (siteKey site)).
Proof.
  intros Hinv st1 site promise st2 r st3.
  assert (makeSiteFromSiteListEntry env entry st
          = makeSiteFromSiteListEntry_then entry site r st2) as Hcomp.
  { unfold makeSiteFromSiteListEntry, st2, r, st1, site, promise.
    destruct (makeSiteFromSiteListEntry_call entry st) as [s1 [s p]].
    cbn [fst snd]. by destruct (migrateSiteSchemas_settle env p s1). }
  unfold makeSiteFromSiteListEntry_call in st1, site, promise.
  set (site0 := setOAuthId _ _) in *.
  destruct (call_exposed site0 st Hinv) as (Hinv1 & Hs1 & Hc1 & s' & ts & Hrun & Hk).
  destruct (migrateSiteSchemas_call site0 st) as [s1 p] eqn:Hcall.
  cbn [fst snd] in *. subst st1 site promise.
  destruct (settle_exposed env p s' ts s1 Hinv1 Hrun) as (Hinv2 & Hs2 & Hc2 & Hset).
  fold st2 in Hinv2, Hs2, Hc2, Hset. fold r in Hset.
  assert (r = Resolved tt → migrated st2 (siteKey site0)) as Hmig.
  { intros Hr. exists p, s'. rewrite Hset, Hr. done. }
  destruct (then_exposed entry site0 r st2 Hinv2 Hmig) as [Hinv3 Hrej].
  split; [done|]. split; [split; [congruence|split; [congruence|done]]|].
  split; [done|]. split; [intros Hr; unfold st3; by rewrite Hrej|].
  split; [done|]. split; [done|].
  intros Hr. unfold st3. rewrite Hr. simpl.
  destruct (Hmig Hr) as (q & s'' & Hq & Hsk). by exists q, s''.
Qed.

Lemma makeSiteFromSiteListEntry_exposed env entry st :
  exposedMigrated st →
  let st' := (makeSiteFromSiteListEntry env entry st).1 in
  let out := (makeSiteFromSiteListEntry env entry st).2 in
  exposedMigrated st'
  ∧ (∀ site, out = Resolved site →
       migrated st' (siteKey site) ∧ siteKey site = entry_id entry)
  ∧ (is_rejected out = true →
     sites st' = sites st ∧ currentSite st' = currentSite st).
Proof.
  intros Hinv st' out.
  destruct (makeSiteFromSiteListEntry_stages env entry st Hinv)
    as (_ & (Hs2 & Hc2 & _) & Hinv3 & Hrej & Hcomp & Hkey & Hmig).
  unfold st', out. rewrite Hcomp.
  set (r := (migrateSiteSchemas_settle env _ _).2) in *.
  set (st2 := (migrateSiteSchemas_settle env _ _).1) in *.
  set (site := (makeSiteFromSiteListEntry_call entry st).2.1) in *.
  split; [done|]. destruct r as [[]|e] eqn:Hr.
  - split; [|done]. intros s [= <-]. split; [by apply Hmig|done].
  - split; [done|]. intros _. simpl. done.
Qed.

Lemma getSite_exposed env siteId st :
  exposedMigrated st →
  let st' := (getSite env siteId st).1 in
  let out := (getSite env siteId st).2 in
  exposedMigrated st'
  ∧ (∀ site, out = Resolved site → migrated st' (siteKey site))
  ∧ (is_rejected out = true →
     sites st' = sites st ∧ currentSite st' = currentSite st).
Proof.
  intros Hinv st' out.
  assert (∀ wanted,
            let m := (do data <- appDB_getRecord_site wanted ;
                      makeSiteFromSiteListEntry env data) st in
            exposedMigrated m.1
            ∧ (∀ site, m.2 = Resolved site → migrated m.1 (siteKey site))
            ∧ (is_rejected m.2 = true →
               sites m.1 = sites st ∧ currentSite m.1 = currentSite st)) as Hload.
  { intros wanted. unfold bind, appDB_getRecord_site.
    assert (exposedMigrated (emit (EvAppRead SITES_TABLE) st)) as Hinv'.
    { destruct Hinv. by constructor. }
    destruct (List.find _ _) as [data|]; [|by simpl].
    destruct (makeSiteFromSiteListEntry_exposed env data _ Hinv')
      as (H1 & H2 & H3).
    split; [done|]. split; [|done]. intros site Hsite. by apply H2. }
  unfold st', out, getSite. destruct (noSiteId siteId).
  - destruct (currentSite st) as [site|] eqn:Hcur; simpl.
    + split; [done|]. split; [|done]. intros s [= <-].
      by apply (exposed_current st Hinv).
    + done.
  - destruct (currentSite st) as [site|] eqn:Hcur.
    + destruct (bool_decide _).
      * simpl. split; [done|]. split; [|done]. intros s [= <-].
        by apply (exposed_current st Hinv).
      * destruct (sites st !! default "" siteId) as [site'|] eqn:Hsite.
        -- simpl. split; [done|]. split; [|done]. intros s [= <-].
           by apply (exposed_sites st Hinv _ _ Hsite).
        -- apply Hload.
    + destruct (sites st !! default "" siteId) as [site'|] eqn:Hsite.
      * simpl. split; [done|]. split; [|done]. intros s [= <-].
        by apply (exposed_sites st Hinv _ _ Hsite).
      * apply Hload.
Qed.

Lemma newSite_then_exposed env siteUrl token privateToken login oauthId isNewSite
    candidateSite siteId info st :
  exposedMigrated st →
  migrated st (siteKey candidateSite) →
  let m := newSite_then env siteUrl token privateToken login oauthId isNewSite
             candidateSite siteId info st in
  exposedMigrated m.1 ∧ (is_rejected m.2 = true → m.1 = st).
Proof.
  intros Hinv Hmig m. unfold m, newSite_then, bind.
  destruct (getSiteConfig env candidateSite) as [config|e].
  - set (candidate := match config with
                      | Some c => setConfig (Some c) candidateSite
                      | None => candidateSite
                      end).
    assert (siteKey candidate = siteKey candidateSite) as Hkey.
    { unfold candidate. by destruct config. }
    split; [|done]. cbn [fst].
    assert (∀ s, promises s = promises st → migrated s (siteKey candidate)) as Hm.
    { intros s Hs. rewrite Hkey. destruct Hmig as (p & s' & Hp & Hk).
      exists p, s'. by rewrite Hs. }
    assert (∀ s key, promises s = promises st → migrated st key → migrated s key)
      as Hmono.
    { intros s key Hs (p & s' & Hp & Hk). exists p, s'. by rewrite Hs. }
    destruct Hinv as [Hs Hc Hi Hf].
    destruct login; constructor; simpl; try done.
    + intros key s Hk. destruct (decide (siteId = key)) as [<-|Hne].
      * rewrite lookup_insert_eq in Hk. injection Hk as <-. by apply Hm.
      * rewrite lookup_insert_ne in Hk by done. apply (Hmono _ _ eq_refl). eauto.
    + intros s [= <-]. by apply Hm.
    + intros key s Hk. destruct (decide (siteId = key)) as [<-|Hne].
      * rewrite lookup_insert_eq in Hk. injection Hk as <-. by apply Hm.
      * rewrite lookup_insert_ne in Hk by done. apply (Hmono _ _ eq_refl). eauto.
  - destruct isNewSite; [done|].
    split; [|done]. cbn [fst].
    assert (∀ s key, promises s = promises st → migrated st key → migrated s key)
      as Hmono.
    { intros s key Hs (p & s' & Hp & Hk). exists p, s'. by rewrite Hs. }
    destruct Hinv as [Hs Hc Hi Hf].
    destruct login; constructor; simpl; try done.
    + intros key s Hk. destruct (decide (siteId = key)) as [<-|Hne].
      * rewrite lookup_insert_eq in Hk. injection Hk as <-.
        by apply (Hmono _ _ eq_refl).
      * rewrite lookup_insert_ne in Hk by done. apply (Hmono _ _ eq_refl). eauto.
    + intros s [= <-]. by apply (Hmono _ _ eq_refl).
    + intros key s Hk. destruct (decide (siteId = key)) as [<-|Hne].
      * rewrite lookup_insert_eq in Hk. injection Hk as <-.
        by apply (Hmono _ _ eq_refl).
      * rewrite lookup_insert_ne in Hk by done. apply (Hmono _ _ eq_refl). eauto.
Qed.

(** Where [newSite] stands when it waits for the migration. *)
Lemma newSite_call_exposed env siteUrl token privateToken oauthId st :
  exposedMigrated st →
  let st1 := (newSite_call env siteUrl token privateToken oauthId st).1 in
  exposedMigrated st1
  ∧ match (newSite_call env siteUrl token privateToken oauthId st).2 with
    | NewSiteRejected _ => True
    | NewSiteExisting candidateSite _ _ => migrated st1 (siteKey candidateSite)
    | NewSiteMigrating candidateSite siteId _ promise =>
        sites st1 = sites st ∧ currentSite st1 = currentSite st
        ∧ ∃ site' tables, promises st1 !! promise = Some (Running site' tables)
                          ∧ siteKey site' = siteKey candidateSite
    end.
Proof.
  intros Hinv st1. unfold st1, newSite_call.
  destruct (fetchSiteInfo env _) as [info|e]; [|by simpl].
  destruct (bool_decide _); [|by simpl].
  set (siteId := createSiteID env _ _).
  destruct (getSite_exposed env (Some siteId) st Hinv) as (Hinv1 & Hmig & Hrej).
  unfold catch_ignore.
  destruct (getSite env (Some siteId) st) as [s1 [site|e]]; cbn [fst snd] in *.
  - split; [done|]. by apply (Hmig site).
  - set (candidate := setOAuthId _ _).
    destruct (call_exposed candidate s1 Hinv1)
      as (Hinv2 & Hs2 & Hc2 & s' & ts & Hrun & Hk).
    destruct (migrateSiteSchemas_call candidate s1) as [s2 p]. cbn [fst snd] in *.
    destruct (Hrej eq_refl) as [Hs1 Hc1].
    split; [done|]. split; [congruence|]. split; [congruence|]. by exists s', ts.
Qed.

(** C5. In a state where every exposed site is migrated, loading a site
    from the list of sites and adding a new site keep it so at each stage:
    while the migration is requested and while it runs, the map of sites and
    the current-site pointer are untouched; the site enters the map, and can
    become current, in the stage that follows a resolved migration; after a
    rejected one the map and the pointer stay as they were. *)
Theorem exposed_only_after_migration env st :
  exposedMigrated st →
  (∀ entry,
     let st1 := (makeSiteFromSiteListEntry_call entry st).1 in
     let site := (makeSiteFromSiteListEntry_call entry st).2.1 in
     let promise := (makeSiteFromSiteListEntry_call entry st).2.2 in
     let st2 := (migrateSiteSchemas_settle env promise st1).1 in
     let r := (migrateSiteSchemas_settle env promise st1).2 in
     let st3 := (makeSiteFromSiteListEntry_then entry site r st2).1 in
     (sites st1 = sites st ∧ currentSite st1 = currentSite st ∧ exposedMigrated st1)
     ∧ (sites st2 = sites st ∧ currentSite st2 = currentSite st
        ∧ exposedMigrated st2)
     ∧ exposedMigrated st3
     ∧ (is_rejected r = true → st3 = st2)
     ∧ makeSiteFromSiteListEntry env entry st
       = makeSiteFromSiteListEntry_then entry site r st2)
  ∧ (∀ siteUrl token privateToken login oauthId,
       let st1 := (newSite_call env siteUrl token privateToken oauthId st).1 in
       exposedMigrated st1
       ∧ match (newSite_call env siteUrl token privateToken oauthId st).2 with
         | NewSiteMigrating candidateSite siteId info promise =>
             let st2 := (migrateSiteSchemas_settle env promise st1).1 in
             let r := (migrateSiteSchemas_settle env promise st1).2 in
             sites st1 = sites st ∧ currentSite st1 = currentSite st
             ∧ sites st2 = sites st ∧ currentSite st2 = currentSite st
             ∧ exposedMigrated st2
             ∧ (is_rejected r = true →
                (newSite env siteUrl token privateToken login oauthId st).1 = st2
                ∧ is_rejected
                    (newSite env siteUrl token privateToken login oauthId st).2
                  = true)
         | _ => True
         end
       ∧ exposedMigrated
           (newSite env siteUrl token privateToken login oauthId st).1)
  ∧ (∀ siteId, exposedMigrated (getSite env siteId st).1).
Proof.
  intros Hinv. split; [|split].
  - intros entry.
    destruct (makeSiteFromSiteListEntry_stages env entry st Hinv)
      as (H1 & H2 & H3 & H4 & H5 & _). done.
  - intros siteUrl token privateToken login oauthId st1.
    destruct (newSite_call_exposed env siteUrl token privateToken oauthId st Hinv)
      as [Hinv1 Hstep].
    fold st1 in Hinv1, Hstep. split; [done|].
    unfold newSite. fold st1.
    destruct (newSite_call env siteUrl token privateToken oauthId st)
      as [s1 step] eqn:Hcall.
    cbn [fst snd] in *. subst st1. destruct step as [e|candidate siteId info|
                                                      candidate siteId info promise].
    + done.
    + split; [done|].
      destruct (newSite_then_exposed env siteUrl token privateToken login oauthId
                  false candidate siteId info s1 Hinv1 Hstep) as [Hinv2 _].
      by destruct (newSite_then _ _ _ _ _ _ _ _ _ _ _).
    + destruct Hstep as (Hs1 & Hc1 & s' & ts & Hrun & Hk).
      destruct (settle_exposed env promise s' ts s1 Hinv1 Hrun)
        as (Hinv2 & Hs2 & Hc2 & Hset).
      destruct (migrateSiteSchemas_settle env promise s1) as [s2 r].
      cbn [fst snd] in *.
      split.
      { split; [done|]. split; [done|]. split; [congruence|].
        split; [congruence|]. split; [done|].
        intros Hr. destruct r as [[]|e]; [done|]. simpl.
        split; [done|]. unfold newSite_catch. by repeat case_match. }
      destruct r as [[]|e]; [|done].
      assert (migrated s2 (siteKey candidate)) as Hmig.
      { exists promise, s'. by rewrite Hset. }
      destruct (newSite_then_exposed env siteUrl token privateToken login oauthId
                  true candidate siteId info s2 Hinv2 Hmig) as [Hinv3 _].
      by destruct (newSite_then _ _ _ _ _ _ _ _ _ _ _).
  - intros siteId. by apply getSite_exposed.
Qed.

Lemma exposed_only_after_migration_witness :
  exposedMigrated (getSite Samples.webview (Some "s1") Samples.fresh).1.
Proof.
  apply (exposed_only_after_migration Samples.webview Samples.fresh).
  constructor; unfold Samples.fresh; simpl.
  - intros key site H. by rewrite lookup_empty in H.
  - intros site H. discriminate H.
  - intros key promise H. by rewrite lookup_empty in H.
  - intros promise [x H]. by rewrite lookup_empty in H.
Defined.

End ExposureFacts.

(** ** Registration of a schema *)

Section RegistrationFacts.
Import Sites.









End RegistrationFacts.

(** * Further properties *)

(** ** Enumeration of a dictionary under updates and removals *)

Section EnumerationFacts.
Context {V : Type}.
Implicit Types (o : JSObject.t V) (k : string) (v : V).

Lemma get_delete_eq o k : JSObject.get (JSObject.delete o k) k = None.
Proof.
  unfold JSObject.delete. induction o as [|[k' v'] o IH]; [done|].
  destruct (decide (k' = k)) as [->|Hne].
  - by rewrite filter_cons_False by (simpl; tauto).
  - rewrite filter_cons_True by done. simpl. by rewrite decide_False.
Qed.

Lemma get_delete_ne o k k' :
  k ≠ k' → JSObject.get (JSObject.delete o k) k' = JSObject.get o k'.
Proof.
  intros Hne. unfold JSObject.delete. induction o as [|[k0 v0] o IH]; [done|].
  destruct (decide (k0 = k)) as [->|Hk].
  - rewrite filter_cons_False by (simpl; tauto). simpl. by rewrite decide_False.
  - rewrite filter_cons_True by done. simpl. by rewrite IH.
Qed.

Lemma delete_fresh o k : k ∉ o.*1 → JSObject.delete o k = o.
Proof.
  unfold JSObject.delete. induction o as [|[k' v'] o IH]; [done|].
  rewrite fmap_cons. intros [Hne Hnin]%not_elem_of_cons. simpl in Hne.
  rewrite filter_cons_True by (simpl; intros ->; by apply Hne). by rewrite IH.
Qed.

Lemma delete_set_fresh o k v :
  k ∉ o.*1 → JSObject.delete (JSObject.set o k v) k = o.
Proof.
  intros Hfresh. rewrite set_fresh by done. unfold JSObject.delete.
  rewrite filter_app, filter_cons_False by (simpl; tauto).
  rewrite filter_nil, app_nil_r. by apply delete_fresh.
Qed.

Lemma get_fmap_values (f : V → V) o k :
  JSObject.get ((λ e, (e.1, f e.2)) <$> o) k = f <$> JSObject.get o k.
Proof.
  induction o as [|[k' v'] o IH]; [done|]. simpl.
  by destruct (decide (k' = k)).
Qed.

Lemma insert_by_index_fmap {A} (g : A → A) n a (l : list (N * A)) :
  JSObject.insert_by_index n (g a) ((λ x, (x.1, g x.2)) <$> l)
  = (λ x, (x.1, g x.2)) <$> JSObject.insert_by_index n a l.
Proof.
  induction l as [|[m b] l IH]; [done|].
  rewrite fmap_cons. cbn [JSObject.insert_by_index fst snd].
  destruct (n <? m)%N; [done|]. rewrite fmap_cons. by rewrite IH.
Qed.

Lemma sort_indexed_fmap {A} (g : A → A) (l : list (N * A)) :
  JSObject.sort_indexed ((λ x, (x.1, g x.2)) <$> l)
  = (λ x, (x.1, g x.2)) <$> JSObject.sort_indexed l.
Proof.
  induction l as [|[n a] l IH]; [done|].
  rewrite fmap_cons.
  change (JSObject.sort_indexed ((n, a) :: l))
    with (JSObject.insert_by_index n a (JSObject.sort_indexed l)).
  rewrite <-insert_by_index_fmap, <-IH. done.
Qed.

(** Rewriting the values in place keeps the enumeration order. *)
Lemma entries_fmap_values (f : V → V) o :
  JSObject.entries ((λ e, (e.1, f e.2)) <$> o)
  = (λ e, (e.1, f e.2)) <$> JSObject.entries o.
Proof.
  unfold JSObject.entries. rewrite fmap_app. f_equal.
  - assert (JSObject.indexed ((λ e, (e.1, f e.2)) <$> o)
            = (λ x : N * (string * V), (x.1, (x.2.1, f x.2.2)))
              <$> JSObject.indexed o) as ->.
    { unfold JSObject.indexed. induction o as [|[k v] o IH]; [done|].
      rewrite fmap_cons. cbn [omap list_omap fst snd].
      destruct (JSObject.array_index k); [|done].
      rewrite fmap_cons. simpl. by rewrite IH. }
    rewrite (sort_indexed_fmap (λ e : string * V, (e.1, f e.2))).
    rewrite <-!list_fmap_compose. done.
  - unfold JSObject.named. induction o as [|[k v] o IH]; [done|].
    rewrite fmap_cons. destruct (JSObject.array_index k) eqn:Hk.
    + rewrite !filter_cons_False by (simpl; congruence). done.
    + rewrite !filter_cons_True by done. rewrite fmap_cons. by rewrite IH.
Qed.

Lemma insert_by_index_head {A} n (a : A) (l : list (N * A)) :
  Forall (λ y, (n < y.1)%N) l →
  JSObject.insert_by_index n a l = (n, a) :: l.
Proof.
  destruct l as [|[m b] l]; [done|]. intros [Hlt _]%Forall_cons. simpl in *.
  by apply N.ltb_lt in Hlt as ->.
Qed.

Lemma filter_insert_by_index {A} (P : N * A → Prop) `{∀ x, Decision (P x)}
    n (a : A) (l : list (N * A)) :
  StronglySorted (λ x y, (x.1 ≤ y.1)%N) l →
  filter P (JSObject.insert_by_index n a l)
  = if decide (P (n, a)) then JSObject.insert_by_index n a (filter P l)
    else filter P l.
Proof.
  induction 1 as [|[m b] l Hs IH Hall]; simpl.
  - destruct (decide (P (n, a))).
    + by rewrite filter_cons_True.
    + by rewrite filter_cons_False.
  - destruct (n <? m)%N eqn:Hlt.
    + apply N.ltb_lt in Hlt. destruct (decide (P (n, a))).
      * rewrite filter_cons_True by done.
        rewrite insert_by_index_head; [done|].
        apply Forall_forall. intros y [Hy Hin]%list_elem_of_filter.
        apply elem_of_cons in Hin as [->|Hin]; [done|].
        rewrite Forall_forall in Hall. specialize (Hall y Hin). simpl in *. lia.
      * by rewrite filter_cons_False.
    + destruct (decide (P (m, b))).
      * rewrite !filter_cons_True by done. rewrite IH.
        destruct (decide (P (n, a))); [|done]. simpl. by rewrite Hlt.
      * rewrite !filter_cons_False by done. apply IH.
Qed.

Lemma sort_indexed_filter {A} (P : N * A → Prop) `{∀ x, Decision (P x)}
    (l : list (N * A)) :
  JSObject.sort_indexed (filter P l) = filter P (JSObject.sort_indexed l).
Proof.
  induction l as [|[n a] l IH]; [done|].
  change (JSObject.sort_indexed ((n, a) :: l))
    with (JSObject.insert_by_index n a (JSObject.sort_indexed l)).
  rewrite filter_insert_by_index by apply sort_indexed_sorted.
  destruct (decide (P (n, a))).
  - rewrite filter_cons_True by done. simpl. by rewrite IH.
  - by rewrite filter_cons_False.
Qed.

(** Removing properties keeps the enumeration order of the others. *)
Lemma entries_filter (P : string * V → Prop) `{∀ e, Decision (P e)} o :
  JSObject.entries (filter P o) = filter P (JSObject.entries o).
Proof.
  unfold JSObject.entries. rewrite filter_app. f_equal.
  - assert (JSObject.indexed (filter P o)
            = filter (λ x : N * (string * V), P x.2) (JSObject.indexed o)) as ->.
    { unfold JSObject.indexed. induction o as [|e o IH]; [done|].
      cbn [omap list_omap]. destruct (decide (P e)).
      - rewrite filter_cons_True by done. cbn [omap list_omap].
        destruct (JSObject.array_index e.1); [|done].
        rewrite filter_cons_True by done. by rewrite IH.
      - rewrite filter_cons_False by done.
        destruct (JSObject.array_index e.1); [|done].
        by rewrite filter_cons_False. }
    rewrite sort_indexed_filter.
    generalize (JSObject.sort_indexed (JSObject.indexed o)). intros l.
    induction l as [|x l IH]; [done|]. destruct (decide (P x.2)).
    + rewrite filter_cons_True by done. rewrite !fmap_cons.
      rewrite filter_cons_True by done. by rewrite IH.
    + rewrite filter_cons_False by done. rewrite fmap_cons.
      by rewrite filter_cons_False.
  - unfold JSObject.named. rewrite !list_filter_filter.
    apply list_filter_iff. tauto.
Qed.

Lemma NoDup_keys_entry o (e e' : string * V) :
  NoDup o.*1 → e ∈ o → e' ∈ o → e.1 = e'.1 → e = e'.
Proof.
  induction o as [|x o IH]; [by intros _ ?%elem_of_nil|].
  rewrite fmap_cons. intros [Hx Hnd]%NoDup_cons He He' Hk.
  apply elem_of_cons in He as [->|He], He' as [->|He'].
  - done.
  - exfalso. apply Hx. rewrite Hk. by apply list_elem_of_fmap_2.
  - exfalso. apply Hx. rewrite <-Hk. by apply list_elem_of_fmap_2.
  - by apply IH.
Qed.

Lemma filter_ext_in {A} (P Q : A → Prop) `{∀ x, Decision (P x)}
    `{∀ x, Decision (Q x)} (l : list A) :
  (∀ x, x ∈ l → P x ↔ Q x) → filter P l = filter Q l.
Proof.
  induction l as [|x l IH]; [done|]. intros Hext.
  assert (filter P l = filter Q l) as Hl.
  { apply IH. intros y Hy. apply Hext. by apply list_elem_of_further. }
  destruct (decide (P x)) as [HP|HP].
  - rewrite !filter_cons_True; [by rewrite Hl|by apply Hext; [apply list_elem_of_here|]|done].
  - rewrite !filter_cons_False; [done| |done].
    intros HQ. apply HP. by apply Hext; [apply list_elem_of_here|].
Qed.

(** Deleting, key by key, the properties whose value passes a test leaves
    those whose value fails it. *)
Lemma foldl_delete_filter (p : V → bool) o :
  NoDup o.*1 →
  foldl (λ acc e, if p e.2 then JSObject.delete acc e.1 else acc) o
        (JSObject.entries o)
  = filter (λ e, ¬ p e.2) o.
Proof.
  intros Hnd.
  assert (∀ es acc,
            foldl (λ acc e, if p e.2 then JSObject.delete acc e.1 else acc) acc es
            = filter (λ e : string * V,
                        e.1 ∉ (filter (λ e' : string * V, p e'.2) es).*1) acc)
    as Hfold.
  { induction es as [|x es IH]; intros acc.
    - simpl. symmetry. rewrite (filter_ext_in _ (λ _, True)).
      + induction acc as [|y acc IHacc]; [done|].
        rewrite filter_cons_True by done. by rewrite IHacc.
      + intros y _. split; [done|]. intros _. apply not_elem_of_nil.
    - cbn [foldl]. rewrite IH. destruct (p x.2) eqn:Hx.
      + unfold JSObject.delete. rewrite list_filter_filter.
        apply filter_ext_in. intros y _.
        rewrite filter_cons_True by (by apply Is_true_true). rewrite fmap_cons.
        rewrite not_elem_of_cons. tauto.
      + rewrite filter_cons_False by (intros Hp%Is_true_true; congruence).
        done. }
  rewrite Hfold. apply filter_ext_in. intros e He. split.
  - intros Hnin Hp. apply Hnin. apply list_elem_of_fmap. exists e. split; [done|].
    apply list_elem_of_filter. split; [done|]. by rewrite entries_perm.
  - intros Hp ([k v] & Hk & [Hpe Hin]%list_elem_of_filter)%list_elem_of_fmap.
    rewrite entries_perm in Hin.
    assert (e = (k, v)) as -> by by apply (NoDup_keys_entry o).
    done.
Qed.

End EnumerationFacts.

(** ** Reads and writes of the eager table *)

Section EagerReads.
Import Eager.

(** X1. [find] yields the first row that [all] lists for the same
    conditions, and is rejected with "No records found." exactly when [all]
    lists none. *)
Theorem find_first_of_all (t : CoreEagerDatabaseTable) (conditions : DBRecord) :
  find t conditions
  = match all t (Some conditions) with
    | record :: _ => Resolved record
    | [] => Rejected (CoreError "No records found.")
    end.
Proof.
  unfold find, all. generalize (JSObject.values (records t)). intros l.
  induction l as [|r l IH]; [done|]. simpl.
  destruct (recordMatches r conditions) eqn:Hr.
  - by rewrite filter_cons_True by (by apply Is_true_true).
  - rewrite filter_cons_False by (intros Hp%Is_true_true; congruence). apply IH.
Qed.

Lemma foldl_filter_fusion {A B} (f : B → A → B) (p : A → bool) (l : list A) (b : B) :
  foldl (λ acc x, if p x then f acc x else acc) b l = foldl f b (filter p l).
Proof.
  revert b. induction l as [|x l IH]; intros b; [done|]. simpl.
  destruct (p x) eqn:Hx.
  - rewrite filter_cons_True by (by apply Is_true_true). simpl. apply IH.
  - rewrite filter_cons_False by (intros Hp%Is_true_true; congruence). apply IH.
Qed.

(** X2. [reduce] folds the reducer, from its initial value and from left
    to right, over the rows [all()] lists, skipping the rows that fail the
    predicate of the conditions; without conditions no row is skipped. *)
Theorem reduce_over_all {T} (t : CoreEagerDatabaseTable)
    (reducer : CoreDatabaseReducer T) :
  reduce t reducer None
  = foldl (js reducer) (jsInitialValue reducer) (all t None)
  ∧ ∀ conditions,
      reduce t reducer (Some conditions)
      = foldl (js reducer) (jsInitialValue reducer)
              (filter (λ record, conditions_js conditions record) (all t None)).
Proof.
  split.
  - unfold reduce, all. done.
  - intros conditions. unfold reduce, all. apply foldl_filter_fusion.
Qed.

End EagerReads.

Section EagerWrites.
Import Eager Samples.

Lemma values_fmap_values (f : DBRecord → DBRecord) (o : JSObject.t DBRecord) :
  JSObject.values ((λ e, (e.1, f e.2)) <$> o) = f <$> JSObject.values o.
Proof.
  unfold JSObject.values. rewrite entries_fmap_values.
  rewrite <-!list_fmap_compose. done.
Qed.

Lemma findByPrimaryKey_fmap_values (f : DBRecord → DBRecord) cols db db' o pk :
  findByPrimaryKey (mkTable cols db' ((λ e, (e.1, f e.2)) <$> o)) pk
  = match findByPrimaryKey (mkTable cols db o) pk with
    | Resolved r => Resolved (f r)
    | Rejected e => Rejected e
    end.
Proof.
  unfold findByPrimaryKey. simpl. rewrite get_fmap_values.
  by destruct (JSObject.get o (serializePrimaryKey pk)).
Qed.

(** X3. [update] and [updateWhere] resolve and patch the mirror in place:
    every listed row that passes the test carries the updates over its other
    columns, the others are as before, the order of [all()] is kept, and
    every row stays filed under the key it had, so a lookup by that key
    finds the patched row. *)
Theorem update_in_place (t : CoreEagerDatabaseTable) (updates : DBRecord) :
  (∀ conditions,
     let patch r := if updateMatches conditions r then assign r updates else r in
     let t' := (update t updates conditions).1 in
     (update t updates conditions).2 = Resolved tt
     ∧ all t' None = patch <$> all t None
     ∧ (records t').*1 = (records t).*1
     ∧ ∀ primaryKey,
         findByPrimaryKey t' primaryKey
         = match findByPrimaryKey t primaryKey with
           | Resolved r => Resolved (patch r)
           | Rejected e => Rejected e
           end)
  ∧ (∀ conditions,
       let patch r := if conditions_js conditions r then assign r updates else r in
       let t' := (updateWhere t updates conditions).1 in
       (updateWhere t updates conditions).2 = Resolved tt
       ∧ all t' None = patch <$> all t None
       ∧ (records t').*1 = (records t).*1
       ∧ ∀ primaryKey,
           findByPrimaryKey t' primaryKey
           = match findByPrimaryKey t primaryKey with
             | Resolved r => Resolved (patch r)
             | Rejected e => Rejected e
             end).
Proof.
  destruct t as [cols db o]. split; intros conditions patch t'.
  - split; [done|]. split.
    { unfold t', update, all. simpl. apply (values_fmap_values patch). }
    split.
    { unfold t', update. simpl. by rewrite <-list_fmap_compose. }
    intros pk. unfold t', update. simpl.
    apply (findByPrimaryKey_fmap_values patch).
  - split; [done|]. split.
    { unfold t', updateWhere, all. simpl. apply (values_fmap_values patch). }
    split.
    { unfold t', updateWhere. simpl. by rewrite <-list_fmap_compose. }
    intros pk. unfold t', updateWhere. simpl.
    apply (findByPrimaryKey_fmap_values patch).
Qed.

(** X4. [delete] resolves and removes from the mirror exactly the rows that
    match: without conditions [all()] lists nothing afterwards, whatever it
    is asked for; with conditions it lists the rows that did not match, in
    the order they had, and none of them matches the conditions. *)
Theorem delete_matching (t : CoreEagerDatabaseTable) :
  ((delete t None).2 = Resolved tt
   ∧ ∀ conditions, all (delete t None).1 conditions = [])
  ∧ ∀ conditions : DBRecord,
      NoDup (records t).*1 →
      let t' := (delete t (Some conditions)).1 in
      (delete t (Some conditions)).2 = Resolved tt
      ∧ all t' None = filter (λ r, ¬ recordMatches r conditions) (all t None)
      ∧ all t' (Some conditions) = [].
Proof.
  split; [split; [done|by intros [c|]]|].
  intros conditions Hnd t'. split; [done|].
  assert (all t' None = filter (λ r, ¬ recordMatches r conditions) (all t None))
    as Hall.
  { unfold t', delete, all. simpl.
    rewrite (foldl_delete_filter (λ r, recordMatches r conditions)) by done.
    unfold JSObject.values. rewrite entries_filter.
    generalize (JSObject.entries (records t)). intros l.
    induction l as [|e l IH]; [done|].
    destruct (recordMatches e.2 conditions) eqn:He.
    - rewrite filter_cons_False by (intros H; apply H; by apply Is_true_true).
      rewrite fmap_cons.
      rewrite filter_cons_False by (intros H; apply H; by apply Is_true_true).
      done.
    - rewrite filter_cons_True by (intros Hp%Is_true_true; congruence).
      rewrite !fmap_cons.
      rewrite filter_cons_True by (intros Hp%Is_true_true; congruence).
      by rewrite IH. }
  split; [done|].
  change (all t' (Some conditions))
    with (filter (λ r, recordMatches r conditions) (all t' None)).
  rewrite Hall, list_filter_filter.
  generalize (all t None). intros l. induction l as [|r l IH]; [done|].
  rewrite filter_cons_False by tauto. done.
Qed.

Lemma delete_matching_witness :
  all (delete (insertAll (open ["id"] []) [rowB; rowX; rowA]).1
         (Some {["name" := VText "a"]})).1 None
  = filter (λ r, ¬ recordMatches r {["name" := VText "a"]})
           (all (insertAll (open ["id"] []) [rowB; rowX; rowA]).1 None).
Proof.
  refine (proj1 (proj2 (proj2
            (delete_matching (insertAll (open ["id"] []) [rowB; rowX; rowA]).1)
            {["name" := VText "a"]} _))).
  refine (bool_decide_unpack _ _). vm_compute. exact I.
Defined.

(** X5. [deleteByPrimaryKey] makes the lookup of that key fail with "No
    records found." and leaves the lookup of every key with another
    serialization as it was. *)
Theorem deleteByPrimaryKey_lookup (t : CoreEagerDatabaseTable)
    (primaryKey : PrimaryKey) :
  let t' := (deleteByPrimaryKey t primaryKey).1 in
  (deleteByPrimaryKey t primaryKey).2 = Resolved tt
  ∧ findByPrimaryKey t' primaryKey = Rejected (CoreError "No records found.")
  ∧ ∀ other, serializePrimaryKey other ≠ serializePrimaryKey primaryKey →
             findByPrimaryKey t' other = findByPrimaryKey t other.
Proof.
  intros t'. split; [done|]. split.
  - unfold t', deleteByPrimaryKey, findByPrimaryKey. simpl.
    by rewrite get_delete_eq.
  - intros other Hne. unfold t', deleteByPrimaryKey, findByPrimaryKey. simpl.
    by rewrite get_delete_ne.
Qed.

Lemma deleteByPrimaryKey_lookup_witness :
  findByPrimaryKey
    (deleteByPrimaryKey (insertAll (open ["id"] []) [rowA; rowB]).1
       (getPrimaryKeyFromRecord ["id"] rowA)).1
    (getPrimaryKeyFromRecord ["id"] rowB)
  = findByPrimaryKey (insertAll (open ["id"] []) [rowA; rowB]).1
      (getPrimaryKeyFromRecord ["id"] rowB).
Proof.
  apply (deleteByPrimaryKey_lookup (insertAll (open ["id"] []) [rowA; rowB]).1
           (getPrimaryKeyFromRecord ["id"] rowA)).
  vm_compute. discriminate.
Defined.

Lemma get_None_fresh {V} (o : JSObject.t V) k :
  JSObject.get o k = None → k ∉ o.*1.
Proof.
  induction o as [|[k' v] o IH]; simpl; [intros _; apply not_elem_of_nil|].
  destruct (decide (k' = k)); [done|]. intros Hget.
  apply not_elem_of_cons. split; [done|by apply IH].
Qed.

(** X6. Inserting a record whose key is neither stored nor mirrored and
    then deleting it by its primary key gives back the table as it was. *)
Theorem insert_then_deleteByPrimaryKey (t : CoreEagerDatabaseTable) (r : DBRecord) :
  (∀ stored, stored ∈ database t →
     getPrimaryKeyFromRecord (primaryKeyColumns t) stored
     ≠ getPrimaryKeyFromRecord (primaryKeyColumns t) r) →
  JSObject.get (records t) (recordKey t r) = None →
  (insert t r).2 = Resolved tt
  ∧ deleteByPrimaryKey (insert t r).1
      (getPrimaryKeyFromRecord (primaryKeyColumns t) r)
    = (t, Resolved tt).
Proof.
  intros Hfresh Hmirror. destruct t as [cols db o]. simpl in *.
  unfold insert, super_insert. simpl.
  destruct (existsb _ db) eqn:Hex.
  { exfalso. apply existsb_exists in Hex as (stored & Hin & Hsame).
    unfold samePrimaryKey in Hsame. apply bool_decide_eq_true in Hsame.
    simpl in Hsame. apply (Hfresh stored); [by apply list_elem_of_In|done]. }
  simpl. split; [done|].
  unfold deleteByPrimaryKey, super_deleteByPrimaryKey. simpl.
  f_equal. f_equal.
  - rewrite filter_app, filter_cons_False by tauto.
    rewrite filter_nil, app_nil_r.
    rewrite (filter_ext_in _ (λ _, True)).
    + clear. induction db as [|y db IH]; [done|].
      rewrite filter_cons_True by done. by f_equal.
    + intros stored Hin. split; [done|]. intros _. by apply Hfresh.
  - apply delete_set_fresh. apply get_None_fresh. exact Hmirror.
Qed.

Lemma insert_then_deleteByPrimaryKey_witness :
  (insert (insertAll (open ["id"] []) [rowA]).1 rowB).2 = Resolved tt
  ∧ deleteByPrimaryKey (insert (insertAll (open ["id"] []) [rowA]).1 rowB).1
      (getPrimaryKeyFromRecord ["id"] rowB)
    = ((insertAll (open ["id"] []) [rowA]).1, Resolved tt).
Proof.
  apply (insert_then_deleteByPrimaryKey (insertAll (open ["id"] []) [rowA]).1 rowB).
  - intros stored Hin. vm_compute in Hin.
    apply list_elem_of_singleton in Hin as ->. vm_compute. discriminate.
  - vm_compute. reflexivity.
Defined.

End EagerWrites.

Section EagerInvariant.
Import Eager Samples.

Lemma mirrorKeyed_database cols db db' o :
  mirrorKeyed (mkTable cols db o) → mirrorKeyed (mkTable cols db' o).
Proof. done. Qed.

Lemma mirrorKeyed_set cols db o r :
  mirrorKeyed (mkTable cols db o) →
  mirrorKeyed (mkTable cols db (JSObject.set o (keyOf cols r) r)).
Proof.
  intros [Hnd Hkey]. split; simpl in *.
  - destruct (set_keys o (keyOf cols r) r) as [->|[Hnin ->]]; [done|].
    apply NoDup_app. split; [done|]. split; [|apply NoDup_singleton].
    intros k Hk ->%list_elem_of_singleton. done.
  - intros e [->|He]%set_elem_of; [done|by apply Hkey].
Qed.

Lemma mirrorKeyed_filter cols db o (P : string * DBRecord → Prop)
    `{∀ e, Decision (P e)} :
  mirrorKeyed (mkTable cols db o) → mirrorKeyed (mkTable cols db (filter P o)).
Proof.
  intros [Hnd Hkey]. split; simpl in *.
  - apply (sublist_NoDup _ _ Hnd). apply fmap_sublist, sublist_filter.
  - intros e [_ He]%list_elem_of_filter. by apply Hkey.
Qed.

Lemma mirrorKeyed_fmap_values cols db o (f : DBRecord → DBRecord) :
  (∀ r, keyOf cols (f r) = keyOf cols r) →
  mirrorKeyed (mkTable cols db o) →
  mirrorKeyed (mkTable cols db ((λ e, (e.1, f e.2)) <$> o)).
Proof.
  intros Hf [Hnd Hkey]. split; simpl in *.
  - by rewrite <-list_fmap_compose.
  - intros e ([k r] & -> & He)%list_elem_of_fmap. simpl.
    unfold recordKey. simpl. rewrite Hf. apply (Hkey (k, r) He).
Qed.

Lemma keyOf_assign cols (r updates : DBRecord) :
  (∀ column, column ∈ cols → updates !! column = None) →
  keyOf cols (assign r updates) = keyOf cols r.
Proof.
  intros Hcols. unfold keyOf, getPrimaryKeyFromRecord, assign. f_equal.
  apply list_fmap_ext. intros i column Hi. f_equal.
  apply lookup_union_r. apply Hcols. by apply list_elem_of_lookup_2 in Hi.
Qed.

Lemma initialize_mirrorKeyed (t : CoreEagerDatabaseTable) : mirrorKeyed (initialize t).
Proof.
  destruct t as [cols db o].
  unfold initialize, super_all, recordKey. simpl.
  assert (∀ rows o', mirrorKeyed (mkTable cols db o') →
            mirrorKeyed (mkTable cols db
              (foldl (λ data record, JSObject.set data (keyOf cols record) record)
                     o' rows))) as Hfold.
  { induction rows as [|r rows IH]; intros o' Ho'; [done|].
    cbn [foldl]. apply IH. by apply mirrorKeyed_set. }
  apply Hfold. split; simpl; [apply NoDup_nil_2|by intros e ?%elem_of_nil].
Qed.

(** X7. Whatever the rows of the store, [initialize] leaves a mirror that
    files every record under its own serialized primary key, each key once;
    [insert], [delete] and [deleteByPrimaryKey] keep it, and so do [update]
    and [updateWhere] when the updates set no primary-key column. *)
Theorem mirrorKeyed_preserved (t : CoreEagerDatabaseTable) :
  mirrorKeyed (initialize t)
  ∧ (mirrorKeyed t →
     (∀ record, mirrorKeyed (insert t record).1)
     ∧ (∀ conditions, mirrorKeyed (delete t conditions).1)
     ∧ (∀ primaryKey, mirrorKeyed (deleteByPrimaryKey t primaryKey).1)
     ∧ ∀ updates,
         (∀ column, column ∈ primaryKeyColumns t → updates !! column = None) →
         (∀ conditions, mirrorKeyed (update t updates conditions).1)
         ∧ ∀ conditions, mirrorKeyed (updateWhere t updates conditions).1).
Proof.
  split; [apply initialize_mirrorKeyed|].
  destruct t as [cols db o]. intros Hinv. split; [|split; [|split]].
  - intros record. unfold insert, super_insert. simpl.
    destruct (existsb _ db); [done|]. simpl.
    apply (mirrorKeyed_database cols db), mirrorKeyed_set, Hinv.
  - intros [c|]; unfold delete; simpl.
    + destruct Hinv as [Hnd Hkey]. simpl in *.
      rewrite (foldl_delete_filter (λ r, recordMatches r c)) by done.
      apply (mirrorKeyed_database cols db), mirrorKeyed_filter. by split.
    + split; simpl; [apply NoDup_nil_2|by intros e ?%elem_of_nil].
  - intros primaryKey. unfold deleteByPrimaryKey. simpl.
    apply (mirrorKeyed_database cols db), mirrorKeyed_filter, Hinv.
  - intros updates Hcols. simpl in Hcols. split; intros conditions.
    + unfold update. simpl.
      apply (mirrorKeyed_database cols db).
      apply (mirrorKeyed_fmap_values cols db o
               (λ r, if updateMatches conditions r then assign r updates else r));
        [|done].
      intros r. destruct (updateMatches conditions r); [|done].
      by apply keyOf_assign.
    + unfold updateWhere. simpl.
      apply (mirrorKeyed_database cols db).
      apply (mirrorKeyed_fmap_values cols db o
               (λ r, if conditions_js conditions r then assign r updates else r));
        [|done].
      intros r. destruct (conditions_js conditions r); [|done].
      by apply keyOf_assign.
Qed.

Lemma mirrorKeyed_preserved_witness :
  mirrorKeyed (update (open ["id"] [rowA; rowB]) {["name" := VText "z"]}
                 (Some {["id" := VInt 1]})).1.
Proof.
  pose proof (mirrorKeyed_preserved (open ["id"] [rowA; rowB])) as [_ Hkeep].
  destruct (Hkeep (initialize_mirrorKeyed _)) as (_ & _ & _ & Hupdate).
  refine (proj1 (Hupdate {["name" := VText "z"]} _) (Some {["id" := VInt 1]})).
  intros column Hcolumn. vm_compute in Hcolumn.
  apply list_elem_of_singleton in Hcolumn as ->. reflexivity.
Defined.

(** X8. In a table whose mirror files every record under its own key, each
    record listed by [all()] is the one [findByPrimaryKey] returns for its
    primary key, and the listed records have pairwise distinct serialized
    keys. *)
Theorem listed_found_by_own_key (t : CoreEagerDatabaseTable) :
  mirrorKeyed t →
  (∀ record, record ∈ all t None →
     findByPrimaryKey t (getPrimaryKeyFromRecord (primaryKeyColumns t) record)
     = Resolved record)
  ∧ NoDup (recordKey t <$> all t None).
Proof.
  intros [Hnd Hkey]. split.
  - intros record Hin. unfold all, JSObject.values in Hin.
    apply list_elem_of_fmap in Hin as ([k r] & -> & He).
    rewrite entries_perm in He. simpl.
    unfold findByPrimaryKey.
    rewrite (get_lookup_NoDup (records t) _ r Hnd); [done|].
    pose proof (Hkey _ He) as Hk. simpl in Hk. unfold recordKey, keyOf in Hk.
    by rewrite <-Hk.
  - unfold all, JSObject.values. rewrite <-list_fmap_compose.
    assert ((recordKey t ∘ snd) <$> JSObject.entries (records t)
            = fst <$> JSObject.entries (records t)) as ->.
    { apply list_fmap_ext. intros i e Hi. simpl. symmetry. apply Hkey.
      rewrite <-(entries_perm (records t)). by apply list_elem_of_lookup_2 in Hi. }
    by rewrite (entries_perm (records t)).
Qed.

Lemma listed_found_by_own_key_witness :
  findByPrimaryKey (open ["id"] [rowA; rowB])
    (getPrimaryKeyFromRecord ["id"] rowB)
  = Resolved rowB.
Proof.
  pose proof (listed_found_by_own_key (open ["id"] [rowA; rowB])
                (initialize_mirrorKeyed _)) as [Hfound _].
  apply (Hfound rowB). vm_compute.
  apply list_elem_of_further, list_elem_of_here.
Defined.

End EagerInvariant.

Section ReleaseFacts.
Import Sites.
Import Stdlib.Strings.Ascii.

Lemma append_cons (c : Ascii.ascii) (s t : string) :
  String c s +:+ t = String c (s +:+ t).
Proof. done. Qed.

Lemma append_empty_r (s : string) : s +:+ "" = s.
Proof. induction s as [|c s IH]; [done|]. by rewrite append_cons, IH. Qed.

Lemma append_assoc (s1 s2 s3 : string) : (s1 +:+ s2) +:+ s3 = s1 +:+ (s2 +:+ s3).
Proof. induction s1 as [|c s1 IH]; [done|]. by rewrite !append_cons, IH. Qed.

Lemma repeat_digits (rounds : nat) (matched input : string) :
  (String.length input ≤ rounds)%nat →
  repeatMatcher (compile ReDigit) rounds matched input (λ matched' _, Some matched')
  = Some (matched +:+ leadingDigits input).
Proof.
  revert matched input. induction rounds as [|rounds IH]; intros matched input Hlen.
  - destruct input; simpl in *; [|lia]. by rewrite append_empty_r.
  - destruct input as [|c rest]; simpl; [by rewrite append_empty_r|].
    destruct (isDigit c); [|by rewrite append_empty_r].
    rewrite IH by (simpl in Hlen; lia).
    by rewrite append_assoc.
Qed.

Lemma getReleaseNumber_cases (rawRelease : string) :
  getReleaseNumber rawRelease
  = match rawRelease with
    | String d1 rest =>
        if isDigit d1 then
          match rest with
          | String c1 (String d2 rest2) =>
              if bool_decide (c1 = "."%char) && isDigit d2 then
                match rest2 with
                | String c2 (String d3 rest3) =>
                    if bool_decide (c2 = "."%char) && isDigit d3 then
                      String d1 (String c1 (String d2 (String c2 (String d3
                        (leadingDigits rest3)))))
                    else String d1 (String c1 (String d2 ""))
                | _ => String d1 (String c1 (String d2 ""))
                end
              else String d1 ""
          | _ => String d1 ""
          end
        else ""
    | EmptyString => ""
    end.
Proof.
  unfold getReleaseNumber, matchAtStart, releasePattern. cbn [compile].
  destruct rawRelease as [|d1 rest]; [done|].
  destruct (isDigit d1); [|done].
  destruct rest as [|c1 rest]; [done|].
  destruct (bool_decide (c1 = "."%char)); [|by destruct rest].
  destruct rest as [|d2 rest2]; [done|].
  destruct (isDigit d2); [|done]. cbn [andb].
  destruct rest2 as [|c2 rest2]; [done|].
  destruct (bool_decide (c2 = "."%char)); [|by destruct rest2].
  destruct rest2 as [|d3 rest3]; [done|].
  destruct (isDigit d3); [|done]. cbn [andb].
  by rewrite repeat_digits.
Qed.

Lemma leadingDigits_prefix (s : string) : ∃ rest, s = leadingDigits s +:+ rest.
Proof.
  induction s as [|c s [rest IH]]; [by exists ""|]. simpl.
  destruct (isDigit c); [|by eexists].
  exists rest. by rewrite append_cons, <-IH.
Qed.

Lemma leadingDigits_idemp (s : string) :
  leadingDigits (leadingDigits s) = leadingDigits s.
Proof.
  induction s as [|c s IH]; [done|]. simpl.
  destruct (isDigit c) eqn:Hc; [|done]. simpl. by rewrite Hc, IH.
Qed.

(** X9. [getReleaseNumber] returns a prefix of the raw release text; the
    result is empty exactly when the text does not start with a digit; and
    the release number of a release number is itself. *)
Theorem getReleaseNumber_prefix (rawRelease : string) :
  (∃ rest, rawRelease = getReleaseNumber rawRelease +:+ rest)
  ∧ (getReleaseNumber rawRelease = ""
     ↔ match rawRelease with
       | String c _ => isDigit c = false
       | EmptyString => True
       end)
  ∧ getReleaseNumber (getReleaseNumber rawRelease) = getReleaseNumber rawRelease.
Proof.
  split; [|split].
  - rewrite getReleaseNumber_cases.
    destruct rawRelease as [|d1 rest]; [by exists ""|].
    destruct (isDigit d1); [|by eexists].
    destruct rest as [|c1 [|d2 rest2]]; [by exists ""|by eexists|].
    destruct (bool_decide (c1 = "."%char) && isDigit d2); [|by eexists].
    destruct rest2 as [|c2 [|d3 rest3]]; [by exists ""|by eexists|].
    destruct (bool_decide (c2 = "."%char) && isDigit d3); [|by eexists].
    destruct (leadingDigits_prefix rest3) as [rest Hrest].
    exists rest. rewrite !append_cons. by rewrite <-Hrest.
  - rewrite getReleaseNumber_cases.
    destruct rawRelease as [|d1 rest]; [done|].
    destruct (isDigit d1); [|done].
    split; [|done].
    destruct rest as [|c1 [|d2 rest2]]; [done..|].
    destruct (bool_decide (c1 = "."%char) && isDigit d2); [|done].
    destruct rest2 as [|c2 [|d3 rest3]]; [done..|].
    by destruct (bool_decide (c2 = "."%char) && isDigit d3).
  - rewrite (getReleaseNumber_cases rawRelease).
    destruct rawRelease as [|d1 rest]; [done|].
    destruct (isDigit d1) eqn:H1; [|done].
    assert (getReleaseNumber (String d1 "") = String d1 "") as Hone.
    { rewrite getReleaseNumber_cases. by rewrite H1. }
    destruct rest as [|c1 [|d2 rest2]]; [done..|].
    destruct (bool_decide (c1 = "."%char) && isDigit d2) eqn:H2; [|done].
    assert (getReleaseNumber (String d1 (String c1 (String d2 "")))
            = String d1 (String c1 (String d2 ""))) as Htwo.
    { rewrite getReleaseNumber_cases. by rewrite H1, H2. }
    destruct rest2 as [|c2 [|d3 rest3]]; [done..|].
    destruct (bool_decide (c2 = "."%char) && isDigit d3) eqn:H3; [|done].
    rewrite getReleaseNumber_cases. rewrite H1, H2, H3.
    by rewrite leadingDigits_idemp.
Qed.

Lemma getReleaseNumber_prefix_witness : getReleaseNumber "v3.9" = "".
Proof.
  apply (proj1 (proj2 (getReleaseNumber_prefix "v3.9"))). reflexivity.
Defined.

(** X10. Major and minor version are read as one digit each: a second
    digit after the minor one ends the match, so the release 3.11.2 is
    numbered 3.1. *)
Theorem getReleaseNumber_two_digit_minor (d1 d2 d3 : Ascii.ascii) (rest : string) :
  isDigit d1 = true → isDigit d2 = true → isDigit d3 = true →
  getReleaseNumber (String d1 (String "." (String d2 (String d3 rest))))
  = String d1 (String "." (String d2 "")).
Proof.
  intros H1 H2 H3. rewrite getReleaseNumber_cases. rewrite H1, H2.
  rewrite bool_decide_eq_true_2 by done. cbn [andb].
  assert (bool_decide (d3 = "."%char) = false) as Hdot.
  { apply bool_decide_eq_false. intros ->. done. }
  rewrite Hdot. cbn [andb]. by destruct rest.
Qed.

Lemma getReleaseNumber_two_digit_minor_witness :
  getReleaseNumber "3.11.2+ (Build: 20210517)" = "3.1".
Proof.
  apply (getReleaseNumber_two_digit_minor "3" "1" "1" ".2+ (Build: 20210517)");
    reflexivity.
Defined.

End ReleaseFacts.

Section SessionFacts.
Import Sites.

(** X11. For a non-empty id, [isCurrentSite] agrees with
    [getCurrentSiteId]; for the empty id and for no argument it tells
    whether any site is current; after [unsetCurrentSite] no site is
    current and the current id is the empty string. *)
Theorem isCurrentSite_getCurrentSiteId (st : CoreSitesProvider) :
  (∀ siteId, siteId ≠ "" →
     isCurrentSite (AnId siteId) st = bool_decide (getCurrentSiteId st = Some siteId))
  ∧ isCurrentSite (AnId "") st = bool_decide (is_Some (currentSite st))
  ∧ isCurrentSite NoArgument st = bool_decide (is_Some (currentSite st))
  ∧ (∀ site, isCurrentSite site (unsetCurrentSite st) = false)
  ∧ getCurrentSiteId (unsetCurrentSite st) = Some "".
Proof.
  unfold isCurrentSite, getCurrentSiteId. split; [|split; [|split; [|done]]].
  - intros siteId Hne. destruct (currentSite st) as [current|]; simpl.
    + by rewrite bool_decide_eq_false_2.
    + symmetry. apply bool_decide_eq_false. by intros [= <-].
  - by destruct (currentSite st).
  - by destruct (currentSite st).
Qed.

Lemma isCurrentSite_getCurrentSiteId_witness :
  isCurrentSite (AnId "s1") Samples.loaded
  = bool_decide (getCurrentSiteId Samples.loaded = Some "s1").
Proof.
  refine (proj1 (isCurrentSite_getCurrentSiteId Samples.loaded) "s1" _).
  discriminate.
Defined.

(** X12. The ids of the sites that are not logged out are among the ids of
    all sites; [hasSites] tells whether there is an id at all; and the three
    queries leave everything but the log as it was. *)
Theorem loggedIn_among_sites (st : CoreSitesProvider) :
  ∃ ids loggedIn,
    getSitesIds st = (emit (EvAppRead SITES_TABLE) st, Resolved ids)
    ∧ getLoggedInSitesIds st = (emit (EvAppRead SITES_TABLE) st, Resolved loggedIn)
    ∧ hasSites st = (emit (EvAppRead SITES_TABLE) st, Resolved (bool_decide (ids ≠ [])))
    ∧ loggedIn ⊆ ids.
Proof.
  exists (entry_id <$> sitesTable (appDB st)),
         (entry_id <$> filter (λ e, entry_loggedOut e = 0) (sitesTable (appDB st))).
  split; [done|]. split; [done|]. split.
  - unfold hasSites, bind, appDB_countRecords_sites, ret. f_equal. f_equal.
    destruct (sitesTable (appDB st)) as [|e l]; [done|].
    rewrite bool_decide_eq_true_2 by done.
    apply Z.ltb_lt. rewrite length_cons. lia.
  - intros i (e & -> & [_ He]%list_elem_of_filter)%list_elem_of_fmap.
    by apply list_elem_of_fmap_2.
Qed.

(** X13. After [addSite], the site is listed exactly once by
    [getSitesIds], it counts as logged in, and [hasSites] holds; the other
    sites are listed as before; the site map and the current site are
    untouched. *)
Theorem addSite_listed (id siteUrl token : string) (info : option CoreSiteInfoResponse)
    (privateToken : string) (config : option string) (oauthId : option Z)
    (st : CoreSitesProvider) :
  let st' := (addSite id siteUrl token info privateToken config oauthId st).1 in
  ∃ ids loggedIn ids' loggedIn',
    (getSitesIds st).2 = Resolved ids
    ∧ (getLoggedInSitesIds st).2 = Resolved loggedIn
    ∧ (getSitesIds st').2 = Resolved ids'
    ∧ (getLoggedInSitesIds st').2 = Resolved loggedIn'
    ∧ ids' ≡ₚ id :: filter (λ i, i ≠ id) ids
    ∧ loggedIn' ≡ₚ id :: filter (λ i, i ≠ id) loggedIn
    ∧ (hasSites st').2 = Resolved true
    ∧ currentSite st' = currentSite st
    ∧ sites st' = sites st.
Proof.
  intros st'.
  exists (entry_id <$> sitesTable (appDB st)),
         (entry_id <$> filter (λ e, entry_loggedOut e = 0) (sitesTable (appDB st))),
         (entry_id <$> sitesTable (appDB st')),
         (entry_id <$> filter (λ e, entry_loggedOut e = 0) (sitesTable (appDB st'))).
  split; [done|]. split; [done|]. split; [done|]. split; [done|].
  assert (∀ l : list SiteEntry,
            entry_id <$> filter (λ e, entry_id e ≠ id) l
            = filter (λ i, i ≠ id) (entry_id <$> l)) as Hids.
  { induction l as [|e l IH]; [done|]. rewrite fmap_cons.
    destruct (decide (entry_id e = id)) as [He|He].
    - rewrite !filter_cons_False by tauto. done.
    - rewrite !filter_cons_True by done. rewrite fmap_cons. by f_equal. }
  split; [|split; [|split; [|done]]].
  - unfold st', addSite. simpl. rewrite fmap_app. simpl. rewrite Hids.
    symmetry. apply Permutation_cons_append.
  - unfold st', addSite. simpl.
    rewrite filter_app, filter_cons_True by done.
    rewrite filter_nil, fmap_app. simpl.
    etransitivity; [symmetry; apply Permutation_cons_append|].
    apply Permutation_skip. rewrite <-Hids, !list_filter_filter.
    assert (filter (λ e, entry_loggedOut e = 0 ∧ entry_id e ≠ id)
                   (sitesTable (appDB st))
            = filter (λ e, entry_id e ≠ id ∧ entry_loggedOut e = 0)
                     (sitesTable (appDB st))) as ->; [|done].
    apply list_filter_iff. tauto.
  - unfold st', addSite, hasSites, bind, appDB_countRecords_sites, ret. simpl.
    f_equal. rewrite length_app. simpl. apply Z.ltb_lt. lia.
Qed.

End SessionFacts.

Section LookupFacts.
Import Sites.

Lemma call_keeps_sites site st :
  sites (migrateSiteSchemas_call site st).1 = sites st
  ∧ currentSite (migrateSiteSchemas_call site st).1 = currentSite st
  ∧ appDB (migrateSiteSchemas_call site st).1 = appDB st.
Proof.
  unfold migrateSiteSchemas_call.
  by destruct (siteSchemasMigration st !! siteKey site).
Qed.

Lemma settle_keeps_sites env promise st :
  sites (migrateSiteSchemas_settle env promise st).1 = sites st
  ∧ currentSite (migrateSiteSchemas_settle env promise st).1 = currentSite st
  ∧ appDB (migrateSiteSchemas_settle env promise st).1 = appDB st.
Proof.
  destruct (promises st !! promise) as [[site tables|site r]|] eqn:Hp.
  - rewrite (migrateSiteSchemas_settle_running env promise site tables st Hp).
    cbn [fst]. destruct (storeOnly_migrationBody env site tables st)
      as (Hc & Hs & _ & _ & _ & _ & _ & Ha).
    done.
  - unfold migrateSiteSchemas_settle. by rewrite Hp.
  - unfold migrateSiteSchemas_settle. by rewrite Hp.
Qed.

Lemma makeSiteFromSiteListEntry_resolved env entry st st' site :
  makeSiteFromSiteListEntry env entry st = (st', Resolved site) →
  sites st' = <[entry_id entry := site]> (sites st)
  ∧ currentSite st' = currentSite st
  ∧ appDB st' = appDB st.
Proof.
  unfold makeSiteFromSiteListEntry, makeSiteFromSiteListEntry_call.
  set (site0 := setOAuthId _ _).
  destruct (call_keeps_sites site0 st) as (Hs1 & Hc1 & Ha1).
  destruct (migrateSiteSchemas_call site0 st) as [st1 promise]. cbn [fst] in *.
  destruct (settle_keeps_sites env promise st1) as (Hs2 & Hc2 & Ha2).
  destruct (migrateSiteSchemas_settle env promise st1) as [st2 [[]|e]];
    cbn [fst] in *; [|done].
  simpl. intros [= <- <-]. simpl. rewrite Hs2, Hs1, Hc2, Hc1, Ha2, Ha1. done.
Qed.

Lemma makeSiteFromSiteListEntry_rejected env entry st st' e :
  makeSiteFromSiteListEntry env entry st = (st', Rejected e) →
  sites st' = sites st ∧ currentSite st' = currentSite st ∧ appDB st' = appDB st.
Proof.
  unfold makeSiteFromSiteListEntry, makeSiteFromSiteListEntry_call.
  set (site0 := setOAuthId _ _).
  destruct (call_keeps_sites site0 st) as (Hs1 & Hc1 & Ha1).
  destruct (migrateSiteSchemas_call site0 st) as [st1 promise]. cbn [fst] in *.
  destruct (settle_keeps_sites env promise st1) as (Hs2 & Hc2 & Ha2).
  destruct (migrateSiteSchemas_settle env promise st1) as [st2 [[]|e']];
    cbn [fst] in *; [done|].
  simpl. intros [= <- <-]. rewrite Hs2, Hs1, Hc2, Hc1, Ha2, Ha1. done.
Qed.

Lemma getRecord_site_id siteId st st' entry :
  appDB_getRecord_site siteId st = (st', Resolved entry) →
  entry_id entry = siteId ∧ st' = emit (EvAppRead SITES_TABLE) st.
Proof.
  unfold appDB_getRecord_site.
  destruct (List.find _ _) as [found|] eqn:Hfind; [|done].
  intros [= <- <-]. apply find_some in Hfind as [_ Hid].
  by apply bool_decide_eq_true in Hid.
Qed.

Lemma getSite_with_id env (siteId : string) st :
  siteId ≠ "" →
  getSite env (Some siteId) st
  = let load := (do data <- appDB_getRecord_site siteId ;
                 makeSiteFromSiteListEntry env data) st in
    match currentSite st with
    | Some site =>
        if bool_decide (getId site = Some siteId) then (st, Resolved site)
        else match sites st !! siteId with
             | Some site' => (st, Resolved site')
             | None => load
             end
    | None =>
        match sites st !! siteId with
        | Some site' => (st, Resolved site')
        | None => load
        end
    end.
Proof.
  intros Hne. unfold getSite. cbn [noSiteId default].
  by rewrite bool_decide_eq_false_2.
Qed.

(** X14. A site that [getSite] has returned for an id is returned again
    for that id without any further work: the second call leaves the state
    as it is, so the site is read from the app database and migrated at
    most once. *)
Theorem getSite_cached env (siteId : string) st st' site :
  siteId ≠ "" →
  getSite env (Some siteId) st = (st', Resolved site) →
  getSite env (Some siteId) st' = (st', Resolved site).
Proof.
  intros Hne. rewrite !getSite_with_id by done. cbv zeta.
  assert (∀ current,
            (currentSite st = Some current → getId current ≠ Some siteId) →
            sites st !! siteId = None →
            (do data <- appDB_getRecord_site siteId ;
             makeSiteFromSiteListEntry env data) st = (st', Resolved site) →
            sites st' !! siteId = Some site ∧ currentSite st' = currentSite st)
    as Hload.
  { intros _ _ _. unfold bind.
    destruct (appDB_getRecord_site siteId st) as [st1 [entry|e]] eqn:Hread; [|done].
    apply getRecord_site_id in Hread as [Hid ->].
    intros (Hs & Hc & _)%makeSiteFromSiteListEntry_resolved.
    rewrite Hs, Hid, lookup_insert_eq. done. }
  destruct (currentSite st) as [current|] eqn:Hcur.
  - destruct (bool_decide (getId current = Some siteId)) eqn:Hid.
    { intros [= <- <-]. by rewrite Hcur, Hid. }
    destruct (sites st !! siteId) as [site'|] eqn:Hsite.
    { intros [= <- <-]. by rewrite Hcur, Hid, Hsite. }
    intros Hrun. destruct (Hload current) as [Hs Hc]; [|done|done|].
    { intros _. by apply bool_decide_eq_false in Hid. }
    by rewrite Hc, Hid, Hs.
  - destruct (sites st !! siteId) as [site'|] eqn:Hsite.
    { intros [= <- <-]. by rewrite Hcur, Hsite. }
    intros Hrun.
    assert (sites st' !! siteId = Some site ∧ currentSite st' = None) as [Hs Hc].
    { revert Hrun. unfold bind.
      destruct (appDB_getRecord_site siteId st) as [st1 [entry|e]] eqn:Hread;
        [|done].
      apply getRecord_site_id in Hread as [Hid ->].
      intros (Hs & Hc & _)%makeSiteFromSiteListEntry_resolved.
      rewrite Hs, Hid, lookup_insert_eq. split; [done|]. rewrite Hc. exact Hcur. }
    by rewrite Hc, Hs.
Qed.

Lemma getSite_cached_witness :
  getSite Samples.webview (Some "s1")
    (getSite Samples.webview (Some "s1") Samples.fresh).1
  = ((getSite Samples.webview (Some "s1") Samples.fresh).1,
     (getSite Samples.webview (Some "s1") Samples.fresh).2).
Proof.
  assert ((getSite Samples.webview (Some "s1") Samples.fresh).2
          = Resolved Samples.site1) as Hsite.
  { vm_compute. reflexivity. }
  rewrite Hsite.
  apply (getSite_cached Samples.webview "s1" Samples.fresh).
  - discriminate.
  - rewrite <-Hsite. by destruct (getSite _ _ _).
Defined.



End LookupFacts.

Section NewSiteFacts.
Import Sites.



(** What the candidate site of [newSite] carries once the site is known or
    its migration requested. *)
Lemma newSite_call_candidate env (siteUrl tok privTok : string)
    (oauth : option Z) st :
  match (newSite_call env siteUrl tok privTok oauth st).2 with
  | NewSiteRejected _ => True
  | NewSiteExisting candidateSite siteId siteInfo
  | NewSiteMigrating candidateSite siteId siteInfo _ =>
      fetchSiteInfo env (mkSite None siteUrl tok None privTok None false None)
      = Resolved siteInfo
      ∧ siteId = createSiteID env (info_siteurl siteInfo) (info_username siteInfo)
      ∧ token candidateSite = tok
      ∧ privateToken candidateSite = privTok
      ∧ info candidateSite = Some (info_json siteInfo)
      ∧ oauthId candidateSite = oauth
      ∧ loggedOut candidateSite = false
  end.
Proof.
  unfold newSite_call.
  destruct (fetchSiteInfo env _) as [info|e] eqn:Hinfo; [|done].
  case_bool_decide; [|done].
  unfold catch_ignore.
  destruct (getSite env _ st) as [st1 [site|e]].
  - done.
  - cbn [snd]. by destruct (migrateSiteSchemas_call _ st1).
Qed.

Lemma newSite_then_resolved env (siteUrl tok privTok : string) (login : bool)
    (oauth : option Z) (isNewSite : bool) candidateSite (siteId : string) siteInfo
    st st' (result : string) :
  newSite_then env siteUrl tok privTok login oauth isNewSite candidateSite
    siteId siteInfo st = (st', Resolved result) →
  result = siteId
  ∧ ∃ site,
      sites st' !! siteId = Some site
      ∧ token site = token candidateSite
      ∧ privateToken site = privateToken candidateSite
      ∧ info site = info candidateSite
      ∧ oauthId site = oauthId candidateSite
      ∧ loggedOut site = loggedOut candidateSite
      ∧ (login = true → currentSite st' = Some site).
Proof.
  unfold newSite_then, bind.
  destruct (getSiteConfig env candidateSite) as [config|e].
  - intros [= <- <-]. split; [done|].
    exists (match config with
            | Some c => setConfig (Some c) candidateSite
            | None => candidateSite
            end).
    split.
    { destruct login; simpl; by rewrite lookup_insert_eq. }
    repeat (split; [by destruct config|]).
    by intros ->.
  - destruct isNewSite; [done|]. intros [= <- <-]. split; [done|].
    exists candidateSite. split.
    { destruct login; simpl; by rewrite lookup_insert_eq. }
    repeat (split; [done|]).
    by intros ->.
Qed.

(** X17. When [newSite] resolves, it resolves to the id made of the URL
    and the user name of the fetched site info; the site filed under that
    id carries the given tokens, the fetched info and the OAuth id and is
    not logged out; and with [login] that site is the current one. *)
Theorem newSite_resolved env (siteUrl tok privTok : string) (login : bool)
    (oauth : option Z) st st' (result : string) :
  newSite env siteUrl tok privTok login oauth st = (st', Resolved result) →
  ∃ siteInfo site,
    fetchSiteInfo env (mkSite None siteUrl tok None privTok None false None)
    = Resolved siteInfo
    ∧ result = createSiteID env (info_siteurl siteInfo) (info_username siteInfo)
    ∧ sites st' !! result = Some site
    ∧ token site = tok
    ∧ privateToken site = privTok
    ∧ info site = Some (info_json siteInfo)
    ∧ oauthId site = oauth
    ∧ loggedOut site = false
    ∧ (login = true → currentSite st' = Some site).
Proof.
  unfold newSite.
  pose proof (newSite_call_candidate env siteUrl tok privTok oauth st) as Hcall.
  destruct (newSite_call env siteUrl tok privTok oauth st) as [st1 step].
  cbn [snd] in Hcall.
  assert (∀ isNewSite candidateSite siteId siteInfo s,
            fetchSiteInfo env (mkSite None siteUrl tok None privTok None false None)
            = Resolved siteInfo
            ∧ siteId = createSiteID env (info_siteurl siteInfo)
                                    (info_username siteInfo)
            ∧ token candidateSite = tok
            ∧ privateToken candidateSite = privTok
            ∧ info candidateSite = Some (info_json siteInfo)
            ∧ oauthId candidateSite = oauth
            ∧ loggedOut candidateSite = false →
            newSite_then env siteUrl tok privTok login oauth isNewSite
              candidateSite siteId siteInfo s = (st', Resolved result) →
            ∃ siteInfo site,
              fetchSiteInfo env (mkSite None siteUrl tok None privTok None false None)
              = Resolved siteInfo
              ∧ result = createSiteID env (info_siteurl siteInfo)
                                      (info_username siteInfo)
              ∧ sites st' !! result = Some site
              ∧ token site = tok
              ∧ privateToken site = privTok
              ∧ info site = Some (info_json siteInfo)
              ∧ oauthId site = oauth
              ∧ loggedOut site = false
              ∧ (login = true → currentSite st' = Some site)) as Hthen.
  { intros isNewSite candidateSite siteId siteInfo s
      (Hinfo & Hid & Htok & Hpriv & Hi & Ho & Hl) Hrun.
    apply newSite_then_resolved in Hrun
      as (-> & site & Hsite & Ht & Hp & Hi' & Ho' & Hl' & Hlogin).
    exists siteInfo, site. rewrite Ht, Hp, Hi', Ho', Hl'. done. }
  destruct step as [e|candidateSite siteId siteInfo
                   |candidateSite siteId siteInfo promise].
  - intros [= _ Hr]. by destruct e as [|code| |]; unfold newSite_catch in Hr;
      repeat case_match.
  - destruct (newSite_then _ _ _ _ _ _ _ _ _ _ st1) as [s r] eqn:Hrun.
    intros [= <- Hr].
    assert (r = Resolved result) as ->.
    { destruct r; [done|]. unfold newSite_catch in Hr. by repeat case_match. }
    by apply (Hthen false candidateSite siteId siteInfo st1).
  - destruct (migrateSiteSchemas_settle env promise st1) as [st2 [[]|e]].
    + destruct (newSite_then _ _ _ _ _ _ _ _ _ _ st2) as [s r] eqn:Hrun.
      intros [= <- Hr].
      assert (r = Resolved result) as ->.
      { destruct r; [done|]. unfold newSite_catch in Hr. by repeat case_match. }
      by apply (Hthen true candidateSite siteId siteInfo st2).
    + intros [= _ Hr]. unfold newSite_catch in Hr. by repeat case_match.
Qed.

Lemma newSite_resolved_witness :
  ∃ siteInfo site,
    fetchSiteInfo Samples.webview
      (mkSite None "https://school.example" "tok" None "" None false None)
    = Resolved siteInfo
    ∧ "https://school.exampleana"
      = createSiteID Samples.webview (info_siteurl siteInfo) (info_username siteInfo)
    ∧ sites (newSite Samples.webview "https://school.example" "tok" "" true None
               Samples.fresh).1 !! "https://school.exampleana" = Some site
    ∧ token site = "tok".
Proof.
  destruct (newSite_resolved Samples.webview "https://school.example" "tok" ""
              true None Samples.fresh
              (newSite Samples.webview "https://school.example" "tok" "" true None
                 Samples.fresh).1
              "https://school.exampleana")
    as (siteInfo & site & H1 & H2 & H3 & H4 & _).
  - vm_compute. reflexivity.
  - exists siteInfo, site. done.
Defined.

End NewSiteFacts.

Section ClearFacts.
Import Sites.

Lemma foldl_clear_acc (site : CoreSite) (o : JSObject.t CoreRegisteredSiteSchema)
    (l : list (string * CoreRegisteredSiteSchema)) (acc : list string) :
  NoDup o.*1 → (∀ e, e ∈ l → e ∈ o) →
  foldl (λ reset name,
           match JSObject.get o name with
           | Some schema =>
               match canBeCleared schema with
               | Some cleared =>
                   if negb (otherSite site schema) then reset ++ cleared else reset
               | None => reset
               end
           | None => reset
           end) acc l.*1
  = acc ++ mjoin ((λ schema, default [] (canBeCleared schema))
                  <$> filter (λ schema, otherSite site schema = false) l.*2).
Proof.
  intros Hnd. revert acc. induction l as [|[k schema] l IH]; intros acc Hin.
  - simpl. by rewrite app_nil_r.
  - rewrite !fmap_cons. cbn [foldl fst snd].
    rewrite (get_lookup_NoDup o k schema Hnd)
      by (apply Hin, list_elem_of_here).
    rewrite IH by (intros e He; by apply Hin, list_elem_of_further).
    destruct (otherSite site schema) eqn:Hother.
    + rewrite filter_cons_False by (rewrite Hother; done).
      by destruct (canBeCleared schema).
    + rewrite filter_cons_True by done. rewrite fmap_cons. simpl.
      destruct (canBeCleared schema) as [cleared|]; simpl; [|done].
      by rewrite app_assoc.
Qed.

(** X18. [getSiteTableSchemasToClear] lists what the registered schemas
    declare as clearable, schema by schema in enumeration order, leaving
    out the schemas bound to another site. *)
Theorem getSiteTableSchemasToClear_flat (site : CoreSite) (st : CoreSitesProvider) :
  NoDup (siteSchemas st).*1 →
  getSiteTableSchemasToClear site st
  = mjoin ((λ schema, default [] (canBeCleared schema))
           <$> filter (λ schema, otherSite site schema = false)
                      (JSObject.values (siteSchemas st))).
Proof.
  intros Hnd. unfold getSiteTableSchemasToClear, JSObject.keys, JSObject.values.
  rewrite (foldl_clear_acc site (siteSchemas st)); [done|done|].
  intros e He. by rewrite <-(entries_perm (siteSchemas st)).
Qed.

Lemma getSiteTableSchemasToClear_flat_witness :
  getSiteTableSchemasToClear Samples.site1
    (recordSchema (mkSchema "Bar" 1 (Some ["T"]) false None None None)
       Samples.loaded)
  = mjoin ((λ schema, default [] (canBeCleared schema))
           <$> filter (λ schema, otherSite Samples.site1 schema = false)
                 (JSObject.values
                    (siteSchemas (recordSchema (mkSchema "Bar" 1 (Some ["T"]) false None None None)
       Samples.loaded)))).
Proof.
  apply (getSiteTableSchemasToClear_flat Samples.site1
           (recordSchema (mkSchema "Bar" 1 (Some ["T"]) false None None None)
       Samples.loaded)).
  refine (bool_decide_unpack _ _). vm_compute. exact I.
Defined.

(** X19. [validateWorkplaceVersion] never answers [INVALID_VERSION] and
    leaves [isWPApp] defined, so that a second call answers the same; in an
    app whose [isWPApp] was never set it answers [WORKPLACE_APP] exactly
    for the sites that offer the Workplace function, and never
    [MOODLE_APP]. *)
Theorem validateWorkplaceVersion_verdict (isWPApp : option bool)
    (functions : option (list string)) :
  let r := validateWorkplaceVersion isWPApp functions in
  r.2 ≠ INVALID_VERSION
  ∧ is_Some r.1
  ∧ validateWorkplaceVersion r.1 functions = r
  ∧ (isWPApp = None →
     r.2 ≠ MOODLE_APP
     ∧ (r.2 = WORKPLACE_APP ↔ isWorkplace functions = true)
     ∧ (r.2 = VALID_VERSION ↔ isWorkplace functions = false)).
Proof.
  unfold validateWorkplaceVersion.
  destruct isWPApp as [[]|], (isWorkplace functions); simpl;
    repeat split; try done; by eexists.
Qed.

Lemma validateWorkplaceVersion_verdict_witness :
  (validateWorkplaceVersion None (Some ["tool_program_get_user_programs"])).2
  ≠ MOODLE_APP.
Proof.
  refine (proj1 (proj2 (proj2 (proj2
            (validateWorkplaceVersion_verdict None
               (Some ["tool_program_get_user_programs"])))) _)).
  reflexivity.
Defined.

End ClearFacts.

Section VersionRowFacts.
Import Sites.

Lemma applySiteSchema_other_names env site schema oldVersion st (n : string) :
  keepsVersions env schema →
  n ≠ window_name env →
  schema_versions (getDb (applySiteSchema env site schema oldVersion st).1 site) !! n
  = schema_versions (getDb st site) !! n.
Proof.
  intros Hkeep Hne. unfold applySiteSchema, bind.
  destruct (createSchemaTables_effect env site schema st Hkeep) as [Hv1 _].
  destruct (createSchemaTables env site schema st) as [st1 [[]|e1]];
    cbn [fst] in *; [|by rewrite Hv1].
  destruct (runSchemaMigration_effect env site schema oldVersion st1 Hkeep)
    as [Hv2 _].
  destruct (runSchemaMigration site schema oldVersion st1) as [st2 [[]|e2]];
    cbn [fst] in *; [|by rewrite Hv2, Hv1].
  unfold db_insertRecord_version. cbn [fst].
  rewrite getDb_emit, getDb_setDb. cbn [schema_versions].
  rewrite lookup_insert_ne by done. by rewrite Hv2, Hv1.
Qed.

Lemma Promise_all_other_names site (ps : list (Async unit)) st (n : string) :
  (∀ p, p ∈ ps → ∀ s, schema_versions (getDb (p s).1 site) !! n
                      = schema_versions (getDb s site) !! n) →
  schema_versions (getDb (Promise_all ps st).1 site) !! n
  = schema_versions (getDb st site) !! n.
Proof.
  revert st. induction ps as [|p ps IH]; intros st Hps; [done|].
  cbn [Promise_all].
  pose proof (Hps p (list_elem_of_here _ _) st) as Hp.
  destruct (p st) as [st1 r1]. cbn [fst] in Hp.
  specialize (IH st1 (λ q Hq, Hps q (list_elem_of_further _ _ _ Hq))).
  destruct (Promise_all ps st1) as [st2 r2]. cbn [fst] in *. congruence.
Qed.

(** X20. Whatever its outcome, [applySiteSchemas] leaves the version
    recorded under every name but the global [name] as it was; a schema
    under another name is therefore pending after the application exactly
    when it was pending before. *)
Theorem applySiteSchemas_other_names env site schemas st :
  (∀ entry, entry ∈ schemas → keepsVersions env entry.2) →
  let st' := (applySiteSchemas env site schemas st).1 in
  (∀ schemaName, schemaName ≠ window_name env →
     installedVersion st' site schemaName = installedVersion st site schemaName)
  ∧ (∀ entry, entry.1 ≠ window_name env →
       isPending st' site entry = isPending st site entry).
Proof.
  intros Hkeep st'.
  assert (∀ schemaName, schemaName ≠ window_name env →
            installedVersion st' site schemaName
            = installedVersion st site schemaName) as Hversions.
  { intros n Hne. unfold installedVersion, st'. f_equal.
    rewrite applySiteSchemas_unfold.
    apply Promise_all_other_names.
    intros p ([k schema] & Hin & Hp)%list_elem_of_omap s.
    rewrite entries_perm in Hin.
    destruct (isPending st site (k, schema)); [|done].
    injection Hp as <-. apply applySiteSchema_other_names; [|done].
    apply (Hkeep (k, schema) Hin). }
  split; [done|].
  intros entry Hne. unfold isPending. by rewrite Hversions.
Qed.

Lemma applySiteSchemas_other_names_witness :
  isPending (applySiteSchemas Samples.webview Samples.site1
               (singleSchema (Samples.foo 2 true)) Samples.loaded).1
            Samples.site1 ("Foo", Samples.foo 2 true)
  = isPending Samples.loaded Samples.site1 ("Foo", Samples.foo 2 true).
Proof.
  refine (proj2 (applySiteSchemas_other_names Samples.webview Samples.site1
                   (singleSchema (Samples.foo 2 true)) Samples.loaded _)
                ("Foo", Samples.foo 2 true) _).
  - intros entry Hin. vm_compute in Hin.
    apply list_elem_of_singleton in Hin as ->. split.
    + intros ts db. reflexivity.
    + intros callback db v s [= <-]. reflexivity.
  - discriminate.
Defined.

End VersionRowFacts.

Section DbFacts.
Import Db Samples.

Lemma newInstance_cacheOk platform name p : cacheOk p → cacheOk (newInstance platform name p).
Proof.
  intros Hok name' db. unfold newInstance. simpl.
  destruct (decide (name' = name)) as [->|Hne].
  - rewrite lookup_insert_eq. intros [= <-]. simpl. split; [done|lia].
  - rewrite lookup_insert_ne by done. intros [Hn Hr]%Hok. split; [done|lia].
Qed.

Lemma getDB_hit platform (name : string) (p : CoreDbProvider) db :
  dbInstances p !! name = Some db → getDB platform name false p = (p, Some db).
Proof.
  intros Hdb. unfold getDB. rewrite Hdb.
  rewrite bool_decide_eq_false_2 by done. cbn [orb]. by rewrite Hdb.
Qed.

Lemma newInstance_lookup platform (name : string) (p : CoreDbProvider) :
  dbInstances (newInstance platform name p) !! name
  = Some (mkDBObject (created p) name
            (if is_cordova platform then ClassSQLiteDB else ClassSQLiteDBMock)).
Proof. unfold newInstance. cbn [dbInstances]. apply lookup_insert_eq. Qed.

Lemma newInstance_other platform (name other : string) (p : CoreDbProvider) :
  other ≠ name →
  dbInstances (newInstance platform name p) !! other = dbInstances p !! other.
Proof.
  intros Hne. unfold newInstance. cbn [dbInstances]. by apply lookup_insert_ne.
Qed.

(** X21. [getDB] always hands out a database object, and a later call
    without [forceNew] hands out the same object and changes nothing.  A
    cached object is reused as it is; a missing one, or any with
    [forceNew], is replaced by an object that did not exist before, of the
    class of the platform.  The objects cached under other names stay, and
    the cache keeps filing every object under its own name. *)
Theorem getDB_cached platform (name : string) (forceNew : bool) (p : CoreDbProvider) :
  let p' := (getDB platform name forceNew p).1 in
  ∃ db,
    (getDB platform name forceNew p).2 = Some db
    ∧ getDB platform name false p' = (p', Some db)
    ∧ (∀ cached, forceNew = false → dbInstances p !! name = Some cached →
         db = cached ∧ p' = p)
    ∧ (forceNew = true ∨ dbInstances p !! name = None →
       db = mkDBObject (created p) name
              (if is_cordova platform then ClassSQLiteDB else ClassSQLiteDBMock)
       ∧ created p' = S (created p))
    ∧ (∀ other, other ≠ name → dbInstances p' !! other = dbInstances p !! other)
    ∧ (cacheOk p → cacheOk p').
Proof.
  intros p'.
  destruct (dbInstances p !! name) as [cached|] eqn:Hcached;
    [destruct forceNew|].
  - assert (p' = newInstance platform name p) as ->.
    { unfold p', getDB. rewrite Hcached.
      by rewrite bool_decide_eq_false_2. }
    eexists. split.
    { unfold getDB. rewrite Hcached. rewrite bool_decide_eq_false_2 by done.
      cbn [orb snd]. apply newInstance_lookup. }
    split; [apply getDB_hit, newInstance_lookup|].
    split; [done|]. split; [done|].
    split; [intros other Hne; by apply newInstance_other|].
    apply newInstance_cacheOk.
  - assert (p' = p) as ->.
    { unfold p', getDB. rewrite Hcached.
      by rewrite bool_decide_eq_false_2. }
    exists cached. split.
    { unfold getDB. rewrite Hcached. rewrite bool_decide_eq_false_2 by done.
      cbn [orb snd]. done. }
    split; [by apply getDB_hit|].
    split; [by intros c _ [= <-]|]. split; [by intros [?|?]|]. done.
  - assert (p' = newInstance platform name p) as ->.
    { unfold p', getDB. rewrite Hcached.
      by rewrite bool_decide_eq_true_2. }
    eexists. split.
    { unfold getDB. rewrite Hcached. rewrite bool_decide_eq_true_2 by done.
      cbn [orb snd]. apply newInstance_lookup. }
    split; [apply getDB_hit, newInstance_lookup|].
    split; [done|]. split; [done|].
    split; [intros other Hne; by apply newInstance_other|].
    apply newInstance_cacheOk.
Qed.

Lemma getDB_cached_witness :
  ∃ db, (getDB desktop "app" true noDatabases).2 = Some db
        ∧ db = mkDBObject 0 "app" ClassSQLiteDBMock.
Proof.
  destruct (getDB_cached desktop "app" true noDatabases)
    as (db & Hdb & _ & _ & Hnew & _).
  exists db. split; [done|]. apply Hnew. by left.
Defined.

(** X22. [deleteDB] closes a cached database first; when the closing
    fails, the failure is the result, the object stays cached and nothing
    is deleted.  Otherwise the object leaves the cache, the emulated
    database is emptied and the native one deleted, and the next [getDB]
    for the name creates an object that is not the deleted one.  Without a
    cached object nothing happens outside Cordova.  The other names are
    not concerned. *)
Theorem deleteDB_cache platform (name : string) (p : CoreDbProvider) :
  cacheOk p →
  let p' := (deleteDB platform name p).1 in
  let r := (deleteDB platform name p).2 in
  cacheOk p'
  ∧ (∀ other, other ≠ name → dbInstances p' !! other = dbInstances p !! other)
  ∧ (∀ db e, dbInstances p !! name = Some db → close platform db = Rejected e →
       r = Rejected e ∧ dbInstances p' = dbInstances p
       ∧ calls p' = calls p ++ [EvClose db])
  ∧ (∀ db, dbInstances p !! name = Some db → close platform db = Resolved tt →
       dbInstances p' !! name = None
       ∧ calls p' = calls p ++ [EvClose db;
                                match db_class db with
                                | ClassSQLiteDBMock => EvEmptyDatabase db
                                | ClassSQLiteDB => EvDeleteDatabase name
                                end]
       ∧ r = match db_class db with
             | ClassSQLiteDBMock => emptyDatabase platform db
             | ClassSQLiteDB => deleteDatabase platform name
             end
       ∧ ∀ forceNew db', (getDB platform name forceNew p').2 = Some db' →
                          ref db' ≠ ref db)
  ∧ (dbInstances p !! name = None → is_cordova platform = false →
     p' = p ∧ r = Resolved tt).
Proof.
  intros Hok p' r. unfold deleteDB in *.
  destruct (dbInstances p !! name) as [instance|] eqn:Hcached.
  - destruct (close platform instance) as [[]|e] eqn:Hclose.
    + assert (∀ other, other ≠ name →
                dbInstances p' !! other = dbInstances p !! other) as Hother.
      { intros other Hne. subst p'.
        destruct (db_class instance); simpl; by rewrite lookup_delete_ne. }
      assert (dbInstances p' !! name = None ∧ created p' = created p) as [Hgone Hcr].
      { subst p'. destruct (db_class instance); simpl;
          by rewrite lookup_delete_eq. }
      split.
      { intros n db Hn. destruct (decide (n = name)) as [->|Hne].
        - by rewrite Hgone in Hn.
        - rewrite Hother in Hn by done. rewrite Hcr. by apply Hok. }
      split; [done|]. split; [by intros db e [= <-]; rewrite Hclose|].
      split; [|done].
      intros db [= <-] _. split; [done|]. split.
      { subst p'. destruct (db_class instance); simpl;
          by rewrite <-app_assoc. }
      split; [subst r; by destruct (db_class instance)|].
      intros forceNew db'. unfold getDB. cbn [fst snd].
      rewrite Hgone, bool_decide_eq_true_2 by done. cbn [orb].
      unfold newInstance. cbn [dbInstances]. rewrite lookup_insert_eq.
      intros [= <-]. cbn [ref]. rewrite Hcr.
      destruct (Hok name instance Hcached) as [_ Hlt]. lia.
    + subst p' r. cbn [fst snd]. split; [done|]. split; [done|].
      split; [by intros db e' [= <-]; rewrite Hclose; intros [= <-]|].
      split; [|done]. intros db [= <-]. by rewrite Hclose.
  - destruct (is_cordova platform) eqn:Hcordova; subst p' r; cbn [fst snd].
    + split; [done|]. split; [done|]. by repeat split.
    + split; [done|]. split; [done|]. by repeat split.
Qed.

Lemma deleteDB_cache_witness :
  (deleteDB desktop "app" (getDB desktop "app" false noDatabases).1).2
  = Resolved tt
  ∧ dbInstances (deleteDB desktop "app" (getDB desktop "app" false noDatabases).1).1
    !! "app" = None.
Proof.
  destruct (deleteDB_cache desktop "app" (getDB desktop "app" false noDatabases).1)
    as (_ & _ & _ & Hclosed & _).
  - apply (newInstance_cacheOk desktop "app" noDatabases).
    intros n d Hn. unfold noDatabases in Hn. cbn [dbInstances] in Hn.
    by rewrite lookup_empty in Hn.
  - destruct (Hclosed (mkDBObject 0 "app" ClassSQLiteDBMock))
      as (Hgone & _ & Hr & _); [reflexivity|reflexivity|].
    split; [exact Hr|exact Hgone].
Defined.

End DbFacts.

Section RegistrationLoads.
Import Sites.

(** Where a site returned by [getSite] for an id is found afterwards, and
    what [getSite] leaves in place. *)
Lemma getSite_effect env (siteId : string) st :
  siteId ≠ "" →
  let st' := (getSite env (Some siteId) st).1 in
  currentSite st' = currentSite st
  ∧ appDB st' = appDB st
  ∧ (∀ key site, sites st !! key = Some site → sites st' !! key = Some site)
  ∧ ∀ site, (getSite env (Some siteId) st).2 = Resolved site →
      (∃ current, currentSite st = Some current ∧ getId current = Some siteId)
      ∨ is_Some (sites st' !! siteId).
Proof.
  intros Hne st'. unfold st'. rewrite getSite_with_id by done. cbv zeta.
  assert (sites st !! siteId = None →
          let m := (do data <- appDB_getRecord_site siteId ;
                    makeSiteFromSiteListEntry env data) st in
          currentSite m.1 = currentSite st
          ∧ appDB m.1 = appDB st
          ∧ (∀ key site, sites st !! key = Some site → sites m.1 !! key = Some site)
          ∧ ∀ site, m.2 = Resolved site → is_Some (sites m.1 !! siteId)) as Hload.
  { intros Hnone m. unfold m, bind.
    destruct (appDB_getRecord_site siteId st) as [st1 [entry|e]] eqn:Hread.
    - apply getRecord_site_id in Hread as [Hid ->].
      destruct (makeSiteFromSiteListEntry env entry _) as [st2 [site|e]] eqn:Hmake.
      + apply makeSiteFromSiteListEntry_resolved in Hmake as (Hs & Hc & Ha).
        cbn [fst snd]. rewrite Hs, Hid. split; [done|]. split; [done|]. split.
        * intros key s Hkey. rewrite lookup_insert_ne; [done|].
          intros <-. cbn in Hnone. congruence.
        * intros _ _. rewrite lookup_insert_eq. by eexists.
      + apply makeSiteFromSiteListEntry_rejected in Hmake as (Hs & Hc & Ha).
        cbn [fst snd]. rewrite Hs. done.
    - unfold appDB_getRecord_site in Hread.
      destruct (List.find _ _); [done|]. injection Hread as <- _. done. }
  destruct (currentSite st) as [current|] eqn:Hcur.
  - destruct (bool_decide (getId current = Some siteId)) eqn:Hid.
    { cbn [fst snd]. split; [done|]. split; [done|]. split; [done|].
      intros site _. left. exists current. split; [done|].
      by apply bool_decide_eq_true in Hid. }
    destruct (sites st !! siteId) as [site'|] eqn:Hsite.
    { cbn [fst snd]. split; [done|]. split; [done|]. split; [done|].
      intros site _. right. by rewrite Hsite. }
    destruct (Hload eq_refl) as (H1 & H2 & H3 & H4).
    split; [done|]. split; [done|]. split; [done|].
    intros site Hr. right. by apply (H4 site).
  - destruct (sites st !! siteId) as [site'|] eqn:Hsite.
    { cbn [fst snd]. split; [done|]. split; [done|]. split; [done|].
      intros site _. right. by rewrite Hsite. }
    destruct (Hload eq_refl) as (H1 & H2 & H3 & H4).
    split; [done|]. split; [done|]. split; [done|].
    intros site Hr. right. by apply (H4 site).
Qed.

Lemma applyToSites_loads env schema (siteIds : list string) st st' :
  Promise_all ((λ siteId, do site <- getSite env (Some siteId) ;
                          applySiteSchemas env site (singleSchema schema))
               <$> siteIds) st = (st', Resolved tt) →
  currentSite st' = currentSite st
  ∧ (∀ key site, sites st !! key = Some site → sites st' !! key = Some site)
  ∧ ∀ siteId, siteId ∈ siteIds → siteId ≠ "" →
      (∃ current, currentSite st = Some current ∧ getId current = Some siteId)
      ∨ is_Some (sites st' !! siteId).
Proof.
  revert st. induction siteIds as [|siteId siteIds IH]; intros st.
  - intros [= <-]. split; [done|]. split; [done|]. by intros s ?%elem_of_nil.
  - rewrite fmap_cons. cbn [Promise_all].
    destruct (bind (getSite env (Some siteId)) _ st) as [st1 r1] eqn:Hfirst.
    destruct (Promise_all _ st1) as [st2 r2] eqn:Hrest.
    intros [= <- Hr].
    assert (r1 = Resolved tt ∧ r2 = Resolved tt) as [-> ->].
    { destruct r1 as [[]|]; [|done]. by destruct r2 as [[]|]. }
    destruct (IH st1 Hrest) as (Hc2 & Hs2 & Hl2).
    assert (currentSite st1 = currentSite st
            ∧ (∀ key site, sites st !! key = Some site → sites st1 !! key = Some site)
            ∧ (siteId ≠ "" →
               (∃ current, currentSite st = Some current
                           ∧ getId current = Some siteId)
               ∨ is_Some (sites st1 !! siteId))) as (Hc1 & Hs1 & Hl1).
    { destruct (decide (siteId = "")) as [->|Hne].
      - revert Hfirst. unfold bind, getSite. cbn [noSiteId].
        rewrite bool_decide_eq_true_2 by done.
        destruct (currentSite st) as [current|] eqn:Hcur; cbn beta iota; [|done].
        intros Happly.
        destruct (storeOnly_applySiteSchemas env current (singleSchema schema) st)
          as (Hc & Hs & _).
        rewrite Happly in Hc, Hs. cbn [fst] in Hc, Hs.
        split; [congruence|]. split; [by rewrite Hs|done].
      - revert Hfirst. unfold bind.
        destruct (getSite_effect env siteId st Hne) as (Hc & _ & Hs & Hl).
        destruct (getSite env (Some siteId) st) as [s [site|e]]; [|done].
        cbn [fst snd] in *. intros Happly.
        destruct (storeOnly_applySiteSchemas env site (singleSchema schema) s)
          as (Hc' & Hs' & _).
        rewrite Happly in Hc', Hs'. cbn [fst] in Hc', Hs'.
        split; [congruence|]. split.
        + intros key x Hkey. rewrite Hs'. by apply Hs.
        + intros _. destruct (Hl site eq_refl) as [Hcur|Hin]; [by left|right].
          by rewrite Hs'. }
    split; [congruence|]. split; [by intros key site ?%Hs1%Hs2|].
    intros wanted [->|Hin]%elem_of_cons Hne.
    + destruct (Hl1 Hne) as [Hcur|[site Hsite]]; [by left|right].
      exists site. by apply Hs2.
    + destruct (Hl2 wanted Hin Hne) as [(c & Hc & Hid)|Hsite]; [left|by right].
      exists c. split; [congruence|done].
Qed.

(** X23. When a schema for all sites is registered while a site is current
    and the registration resolves, every site of the list of sites has been
    loaded on the way: it is the current site or it is in the site map;
    the sites that were in the map are still there and the current site is
    the same. *)
Theorem registerSiteSchema_loads_sites env schema st st' current :
  currentSite st = Some current →
  onlyCurrentSite schema = false →
  registerSiteSchema env schema st = (st', Resolved tt) →
  currentSite st' = Some current
  ∧ (∀ key site, sites st !! key = Some site → sites st' !! key = Some site)
  ∧ ∀ entry, entry ∈ sitesTable (appDB st) → entry_id entry ≠ "" →
      getId current = Some (entry_id entry) ∨ is_Some (sites st' !! entry_id entry).
Proof.
  intros Hcur Hall. unfold registerSiteSchema. rewrite Hcur, Hall. cbn [negb].
  unfold finally, bind at 1, getSitesIds, bind, appDB_getAllRecords_sites, ret.
  destruct (Promise_all _ _) as [st1 r] eqn:Hrun. intros [= <- ->].
  apply applyToSites_loads in Hrun as (Hc & Hs & Hl).
  cbn in Hc, Hs, Hl. cbn [recordSchema set_siteSchemas currentSite sites].
  split; [congruence|]. split; [done|].
  intros entry Hin Hne.
  destruct (Hl (entry_id entry)) as [(c & Hc' & Hid)|Hsite]; [| |left|by right].
  - apply list_elem_of_fmap. by exists entry.
  - done.
  - congruence.
Qed.

Lemma registerSiteSchema_loads_sites_witness :
  currentSite (registerSiteSchema Samples.webview (Samples.foo 2 false)
                 Samples.loaded).1 = Some Samples.site1.
Proof.
  refine (proj1 (registerSiteSchema_loads_sites Samples.webview
                   (Samples.foo 2 false) Samples.loaded
                   (registerSiteSchema Samples.webview (Samples.foo 2 false)
                      Samples.loaded).1
                   Samples.site1 _ _ _)).
  - reflexivity.
  - reflexivity.
  - vm_compute. reflexivity.
Defined.






Lemma getSite_siteSchemas env siteId st :
  siteSchemas (getSite env siteId st).1 = siteSchemas st.
Proof.
  assert (∀ wanted,
            siteSchemas ((do data <- appDB_getRecord_site wanted ;
                          makeSiteFromSiteListEntry env data) st).1
            = siteSchemas st) as Hload.
  { intros wanted. unfold bind, appDB_getRecord_site.
    destruct (List.find _ _) as [entry|]; [|done]. cbn [fst snd].
    set (s := emit _ st). change (siteSchemas st) with (siteSchemas s).
    generalize s. clear s. intros s.
    unfold makeSiteFromSiteListEntry, makeSiteFromSiteListEntry_call.
    set (site0 := setOAuthId _ _).
    assert (siteSchemas (migrateSiteSchemas_call site0 s).1 = siteSchemas s) as H1.
    { unfold migrateSiteSchemas_call.
      by destruct (siteSchemasMigration s !! siteKey site0). }
    destruct (migrateSiteSchemas_call site0 s) as [s1 promise]. cbn [fst] in H1.
    assert (siteSchemas (migrateSiteSchemas_settle env promise s1).1
            = siteSchemas s1) as H2.
    { destruct (promises s1 !! promise) as [[site tables|site r]|] eqn:Hp.
      - rewrite (migrateSiteSchemas_settle_running env promise site tables s1 Hp).
        cbn [fst]. destruct (storeOnly_migrationBody env site tables s1)
          as (_ & _ & Hschemas & _).
        done.
      - unfold migrateSiteSchemas_settle. by rewrite Hp.
      - unfold migrateSiteSchemas_settle. by rewrite Hp. }
    destruct (migrateSiteSchemas_settle env promise s1) as [s2 [[]|e]];
      cbn [fst] in *; simpl; congruence. }
  unfold getSite. destruct (noSiteId siteId).
  - by destruct (currentSite st).
  - destruct (currentSite st) as [site|].
    + destruct (bool_decide _); [done|].
      destruct (sites st !! _); [done|apply Hload].
    + destruct (sites st !! _); [done|apply Hload].
Qed.

Lemma applyToSites_siteSchemas env schema (siteIds : list string) st :
  siteSchemas
    (Promise_all ((λ siteId, do site <- getSite env (Some siteId) ;
                             applySiteSchemas env site (singleSchema schema))
                  <$> siteIds) st).1
  = siteSchemas st.
Proof.
  revert st. induction siteIds as [|siteId siteIds IH]; intros st; [done|].
  rewrite fmap_cons. cbn [Promise_all].
  assert (siteSchemas
            (bind (getSite env (Some siteId))
               (λ site, applySiteSchemas env site (singleSchema schema)) st).1
          = siteSchemas st) as Hfirst.
  { unfold bind. pose proof (getSite_siteSchemas env (Some siteId) st) as Hget.
    destruct (getSite env (Some siteId) st) as [s [site|e]]; [|done].
    cbn [fst] in Hget.
    destruct (storeOnly_applySiteSchemas env site (singleSchema schema) s)
      as (_ & _ & Hschemas & _).
    congruence. }
  destruct (bind _ _ st) as [st1 r1]. cbn [fst] in Hfirst.
  specialize (IH st1).
  destruct (Promise_all _ st1) as [st2 r2]. cbn [fst] in *. congruence.
Qed.

(** X25. [registerSiteSchema] keeps the registry one property per schema
    name, each holding a schema of that name, whatever the outcome; what it
    changes in the registry is at most the property of the name being
    registered. *)
Theorem registerSiteSchema_registryOk env schema st :
  registryOk (siteSchemas st) →
  registryOk (siteSchemas (registerSiteSchema env schema st).1)
  ∧ ∀ other, other ≠ name schema →
      JSObject.get (siteSchemas (registerSiteSchema env schema st).1) other
      = JSObject.get (siteSchemas st) other.
Proof.
  intros Hok.
  assert (∀ schema' st1,
            name schema' = name schema → siteSchemas st1 = siteSchemas st →
            registryOk (siteSchemas (recordSchema schema' st1))
            ∧ ∀ other, other ≠ name schema →
                JSObject.get (siteSchemas (recordSchema schema' st1)) other
                = JSObject.get (siteSchemas st) other) as Hrecord.
  { intros schema' st1 Hname Hsame. split.
    - apply recordSchema_registryOk. by rewrite Hsame.
    - intros other Hne. unfold recordSchema. cbn [siteSchemas set_siteSchemas].
      rewrite Hsame, Hname. by apply get_set_ne. }
  unfold registerSiteSchema.
  destruct (currentSite st) as [current|] eqn:Hcur.
  - destruct (onlyCurrentSite schema); cbn [negb].
    + unfold finally.
      destruct (storeOnly_applySiteSchemas env current
                  (singleSchema (setSiteId schema (getId current))) st)
        as (_ & _ & Hschemas & _).
      destruct (applySiteSchemas env current _ st) as [st1 r]. cbn [fst] in *.
      by apply Hrecord.
    + unfold finally, bind at 1, getSitesIds, bind, appDB_getAllRecords_sites, ret.
      pose proof (applyToSites_siteSchemas env schema
                    (entry_id <$> sitesTable (appDB st))
                    (emit (EvAppRead SITES_TABLE) st)) as Hrun.
      destruct (Promise_all _ _) as [st1 r]. cbn [fst] in *.
      by apply Hrecord.
  - destruct (onlyCurrentSite schema); cbn [negb fst]; [done|].
    by apply Hrecord.
Qed.

Lemma registerSiteSchema_registryOk_witness :
  registryOk (siteSchemas (registerSiteSchema Samples.webview (Samples.foo 2 false)
                             Samples.loaded).1).
Proof.
  apply (registerSiteSchema_registryOk Samples.webview (Samples.foo 2 false)
           Samples.loaded).
  split; [apply NoDup_nil_2|]. intros entry Hin. by apply elem_of_nil in Hin.
Defined.

End RegistrationLoads.

Section MoreMenuFacts.
Import MoreMenu.





End MoreMenuFacts.
